(** * The kprobes event processor of auditbeat's file_integrity module

    A shallow embedding of [eProcessor.process]
    (auditbeat/module/file_integrity/kprobes/events_process.go) together
    with the directory-entry cache it drives, followed by the properties
    of the processor that the specification states.

    Go pointers to [dEntry] are addresses into an explicit store, so that
    the aliasing between the key index, the parent back-references, the
    children maps and the rename staging slots is the one of the program. *)

From stdpp Require Import base numbers option list strings gmap fin_maps.

Local Open Scope string_scope.
Local Open Scope list_scope.

(** ** Machine integers and constants *)

(** [uint32] addition, with its wrap-around. *)
Definition uint32_add (a b : N) : N := ((a + b) mod 2 ^ 32)%N.

(** The inotify operation codes of golang.org/x/sys/unix. *)
Definition IN_MODIFY : N := 2.
Definition IN_ATTRIB : N := 4.
Definition IN_MOVED_FROM : N := 64.
Definition IN_MOVED_TO : N := 128.
Definition IN_CREATE : N := 256.
Definition IN_DELETE : N := 512.

(** A Go [error] value, identified with its message; [None] is [nil]. *)
Definition error : Type := string.

(** ** Data model *)

(** A [*dEntry]: an address in the store. *)
Definition ptr : Type := positive.

Record dKey : Type := DKey {
  key_Ino : N;
  key_DevMajor : N;
  key_DevMinor : N
}.

#[global] Instance dKey_eq_dec : EqDecision dKey.
Proof. solve_decision. Defined.

#[global] Instance dKey_countable : Countable dKey.
Proof.
  refine (inj_countable'
            (λ k, (key_Ino k, key_DevMajor k, key_DevMinor k))
            (λ t, DKey t.1.1 t.1.2 t.2) _).
  by intros [].
Defined.

Record dEntry : Type := DEntry {
  Parent : option ptr;
  Depth : N;
  Children : gmap string ptr;
  Name : string;
  Ino : N;
  DevMajor : N;
  DevMinor : N
}.

Record tracingMeta : Type := { TID : N }.

Record ProbeEvent : Type := {
  Meta : tracingMeta;
  MaskMonitor : N;
  MaskCreate : N;
  MaskModify : N;
  MaskAttrib : N;
  MaskMoveFrom : N;
  MaskMoveTo : N;
  MaskDelete : N;
  FileName : string;
  FileIno : N;
  FileDevMajor : N;
  FileDevMinor : N;
  ParentIno : N;
  ParentDevMajor : N;
  ParentDevMinor : N
}.

Record MonitorPath : Type := {
  fullPath : string;
  depth : N;
  isFromMove : bool;
  tid : N
}.

(** The key index and the per-TID rename staging map of the cache. *)
Record dEntryCache : Type := {
  index : gmap dKey ptr;
  moveCache : gmap N ptr
}.

(** ** The collaborators, by contract *)

(** The [Emitter] interface: one call, which may change the sink and
    returns a Go error. *)
Class Emitter (E : Type) : Type :=
  Emit : E → string → N → N → E * option error.

(** The [pathTraverser] operations the processor calls. *)
Class pathTraverser (T : Type) : Type := {
  GetMonitorPath : T → N → N → N → string → T * (MonitorPath * bool);
  WalkAsync : T → string → N → N → T
}.

(** The standard library's [filepath.Join]. *)
Class Filepath : Type :=
  filepath_Join : string → string → string.

(** One call of [Emit]: path, pid, op. *)
Definition emission : Type := string * N * N.
(** One call of [WalkAsync]: path, depth, tid. *)
Definition walk : Type := string * N * N.

(** ** Field updates of a directory entry *)

Definition set_Parent (v : option ptr) (en : dEntry) : dEntry :=
  {| Parent := v; Depth := Depth en; Children := Children en;
     Name := Name en; Ino := Ino en; DevMajor := DevMajor en;
     DevMinor := DevMinor en |}.

Definition set_Depth (v : N) (en : dEntry) : dEntry :=
  {| Parent := Parent en; Depth := v; Children := Children en;
     Name := Name en; Ino := Ino en; DevMajor := DevMajor en;
     DevMinor := DevMinor en |}.

Definition set_Children (f : gmap string ptr → gmap string ptr)
    (en : dEntry) : dEntry :=
  {| Parent := Parent en; Depth := Depth en; Children := f (Children en);
     Name := Name en; Ino := Ino en; DevMajor := DevMajor en;
     DevMinor := DevMinor en |}.

Definition set_Name (v : string) (en : dEntry) : dEntry :=
  {| Parent := Parent en; Depth := Depth en; Children := Children en;
     Name := v; Ino := Ino en; DevMajor := DevMajor en;
     DevMinor := DevMinor en |}.

Definition entry_key (en : dEntry) : dKey :=
  DKey (Ino en) (DevMajor en) (DevMinor en).

(** ** Reading the store *)

Definition depth_of (m : gmap ptr dEntry) (l : ptr) : N :=
  from_option Depth 0%N (m !! l).

Definition name_of (m : gmap ptr dEntry) (l : ptr) : string :=
  from_option Name "" (m !! l).

Definition parent_of (m : gmap ptr dEntry) (l : ptr) : option ptr :=
  m !! l ≫= Parent.

Definition children_of (m : gmap ptr dEntry) (l : ptr) : list ptr :=
  match m !! l with
  | Some en => (map_to_list (Children en)).*2
  | None => []
  end.

(** Modelled from the spec: [dEntry.GetChild] (the dEntry methods are not
    part of the sources at hand): lookup of a child by basename. *)
Definition GetChild (m : gmap ptr dEntry) (l : ptr) (name : string)
    : option ptr :=
  m !! l ≫= λ en, Children en !! name.

(** Modelled from the spec: [dEntry.AddChild]: maintains the name map of
    the parent and updates the child's parent back-reference. *)
Definition AddChild (q c : ptr) (m : gmap ptr dEntry) : gmap ptr dEntry :=
  let name := name_of m c in
  alter (set_Children <[name := c]>) q (alter (set_Parent (Some q)) c m).

(** Modelled from the spec: [dEntry.RemoveChild]: maintains the name map
    of the parent and updates the child's parent back-reference. *)
Definition RemoveChild (q : ptr) (name : string) (m : gmap ptr dEntry)
    : gmap ptr dEntry :=
  match GetChild m q name with
  | Some c => alter (set_Children (delete name)) q (alter (set_Parent None) c m)
  | None => m
  end.

(** The entry at [l] and its descendants, through the children maps; the
    store bounds the number of levels. *)
Fixpoint subtree (fuel : nat) (m : gmap ptr dEntry) (l : ptr) : list ptr :=
  l :: match fuel with
       | O => []
       | S n => flat_map (subtree n m) (children_of m l)
       end.

Definition unreference (en : dEntry) : dEntry :=
  set_Children (λ _, ∅) (set_Parent None en).

(** Modelled from the spec: [dEntry.Release]: marks the entry and its
    descendants unreferenced, recursively; an unreferenced entry holds no
    parent back-reference and no children. *)
Definition Release (l : ptr) (m : gmap ptr dEntry) : gmap ptr dEntry :=
  foldr (λ q, alter unreference q) m (subtree (size m) m l).

(** The descendants of [l] with the depth each one gets when [l] has depth
    [dl]. *)
Fixpoint depth_plan (fuel : nat) (m : gmap ptr dEntry) (l : ptr) (dl : N)
    : list (ptr * N) :=
  match fuel with
  | O => []
  | S n =>
      flat_map (λ c, (c, uint32_add dl 1)
                       :: depth_plan n m c (uint32_add dl 1))
               (children_of m l)
  end.

Definition fix_depths (l : ptr) (m : gmap ptr dEntry) : gmap ptr dEntry :=
  foldr (λ qd, alter (set_Depth qd.2) qd.1) m
        (depth_plan (size m) m l (depth_of m l)).

(** The store after the entry [x] is renamed to [n] and re-attached under
    [q]: the steps of [MoveTo] below on the store. *)
Definition reattached (x q : ptr) (n : string) (m : gmap ptr dEntry)
    : gmap ptr dEntry :=
  let renamed := AddChild q x (alter (set_Name n) x m) in
  fix_depths x
    (alter (set_Depth (uint32_add (depth_of renamed q) 1)) x renamed).

(** Eviction of a list of entries from the key index. *)
Definition evict (m : gmap ptr dEntry) (ls : list ptr) (idx : gmap dKey ptr)
    : gmap dKey ptr :=
  foldr (λ q acc, match m !! q with
                  | Some en => delete (entry_key en) acc
                  | None => acc
                  end) idx ls.

Definition detach (l : ptr) (m : gmap ptr dEntry) : gmap ptr dEntry :=
  match parent_of m l with
  | Some q => RemoveChild q (name_of m l) m
  | None => m
  end.

(** ** Relating two stores *)

(** Two stores hold the same addresses, with cells related by [R]. *)
Definition cellwise (R : relation dEntry) (m m' : gmap ptr dEntry) : Prop :=
  ∀ l, option_Forall2 R (m !! l) (m' !! l).

(** The second cell is the first up to its depth. *)
Definition same_links : relation dEntry :=
  λ c c', Parent c' = Parent c ∧ Name c' = Name c
          ∧ Children c' = Children c ∧ entry_key c' = entry_key c.

(** The second cell has the key of the first. *)
Definition same_key : relation dEntry :=
  λ c c', entry_key c' = entry_key c.

(** The second cell has no child under [n] if the first has none. *)
Definition no_new_child (n : string) : relation dEntry :=
  λ c c', Children c !! n = None → Children c' !! n = None.

(** ** Dispatch on the probe masks *)

Inductive eventKind : Type :=
  | KMonitor | KCreate | KModify | KAttrib
  | KMoveFrom | KMoveTo | KDelete | KUnknown.

(** The [switch] of [process]: the first mask equal to 1 decides. *)
Definition dispatch (pe : ProbeEvent) : eventKind :=
  if (MaskMonitor pe =? 1)%N then KMonitor
  else if (MaskCreate pe =? 1)%N then KCreate
  else if (MaskModify pe =? 1)%N then KModify
  else if (MaskAttrib pe =? 1)%N then KAttrib
  else if (MaskMoveFrom pe =? 1)%N then KMoveFrom
  else if (MaskMoveTo pe =? 1)%N then KMoveTo
  else if (MaskDelete pe =? 1)%N then KDelete
  else KUnknown.

Definition fileKey (pe : ProbeEvent) : dKey :=
  DKey (FileIno pe) (FileDevMajor pe) (FileDevMinor pe).

Definition parentKey (pe : ProbeEvent) : dKey :=
  DKey (ParentIno pe) (ParentDevMajor pe) (ParentDevMinor pe).

Section processor.

(** The traverser, the emitter and the standard library's [filepath.Join]
    are collaborators of the processor. *)
Context {T E : Type} `{!pathTraverser T, !Emitter E, !Filepath}.

Record eProcessor : Type := {
  p : T;
  e : E;
  d : dEntryCache;
  isRecursive : bool
}.

(** What a call of [process] acts on: the processor, the store of
    directory entries, the pool of probe events, and the calls made so
    far to [Emit] (with what it returned) and to [WalkAsync]. *)
Record world : Type := {
  this : eProcessor;
  mem : gmap ptr dEntry;
  pool : list ProbeEvent;
  emitted : list (emission * option error);
  walks : list walk
}.

Definition set_mem (f : gmap ptr dEntry → gmap ptr dEntry) (w : world)
    : world :=
  {| this := this w; mem := f (mem w); pool := pool w;
     emitted := emitted w; walks := walks w |}.

Definition set_index (f : gmap dKey ptr → gmap dKey ptr) (w : world)
    : world :=
  {| this := {| p := p (this w); e := e (this w);
                d := {| index := f (index (d (this w)));
                        moveCache := moveCache (d (this w)) |};
                isRecursive := isRecursive (this w) |};
     mem := mem w; pool := pool w; emitted := emitted w; walks := walks w |}.

Definition set_moveCache (f : gmap N ptr → gmap N ptr) (w : world) : world :=
  {| this := {| p := p (this w); e := e (this w);
                d := {| index := index (d (this w));
                        moveCache := f (moveCache (d (this w))) |};
                isRecursive := isRecursive (this w) |};
     mem := mem w; pool := pool w; emitted := emitted w; walks := walks w |}.

(** Calls thread the world. *)
Definition M (A : Type) : Type := world → A * world.

Definition ret {A : Type} (a : A) : M A := λ w, (a, w).

Definition bind {A B : Type} (c : M A) (k : A → M B) : M B :=
  λ w, k (c w).1 (c w).2.

Notation "x <- c ;; k" := (bind c (λ x, k))
  (at level 100, c at next level, right associativity, only parsing).
Notation "c ;; k" := (bind c (λ _, k))
  (at level 100, right associativity, only parsing).

Definition update (f : world → world) : M unit := λ w, (tt, f w).

Definition read {A : Type} (f : world → A) : M A := λ w, (f w, w).

(** [&dEntry{...}]: a new cell of the store. *)
Definition new (en : dEntry) : M ptr :=
  λ w, let l := fresh (dom (mem w)) in (l, set_mem <[l := en]> w).

(** ** The collaborators' calls *)

Definition emit (ePath : string) (pid op : N) : M (option error) :=
  λ w, let r := Emit (e (this w)) ePath pid op in
       (r.2,
        {| this := {| p := p (this w); e := r.1; d := d (this w);
                      isRecursive := isRecursive (this w) |};
           mem := mem w; pool := pool w;
           emitted := emitted w ++ [((ePath, pid, op), r.2)];
           walks := walks w |}).

Definition getMonitorPath (ino devMajor devMinor : N) (name : string)
    : M (MonitorPath * bool) :=
  λ w, let r := GetMonitorPath (p (this w)) ino devMajor devMinor name in
       (r.2,
        {| this := {| p := r.1; e := e (this w); d := d (this w);
                      isRecursive := isRecursive (this w) |};
           mem := mem w; pool := pool w; emitted := emitted w;
           walks := walks w |}).

Definition walkAsync (path : string) (dep t : N) : M unit :=
  λ w, (tt,
        {| this := {| p := WalkAsync (p (this w)) path dep t;
                      e := e (this w); d := d (this w);
                      isRecursive := isRecursive (this w) |};
           mem := mem w; pool := pool w; emitted := emitted w;
           walks := walks w ++ [(path, dep, t)] |}).

(** Modelled from the spec: [releaseProbeEvent] (the probe-event pool is
    not part of the sources at hand): returns the event to its pool. *)
Definition releaseProbeEvent (pe : ProbeEvent) : M unit :=
  λ w, (tt,
        {| this := this w; mem := mem w; pool := pe :: pool w;
           emitted := emitted w; walks := walks w |}).

(** ** The directory-entry cache *)

(** Modelled from the spec: [dEntry.Path] (the dEntry methods are not part
    of the sources at hand): walks the parent pointers, joining the names;
    an entry without a parent holds its full path as its name. *)
Fixpoint Path_from (fuel : nat) (m : gmap ptr dEntry) (l : ptr) : string :=
  match m !! l with
  | None => ""
  | Some en =>
      match Parent en, fuel with
      | Some q, S n => filepath_Join (Path_from n m q) (Name en)
      | _, _ => Name en
      end
  end.

Definition Path (m : gmap ptr dEntry) (l : ptr) : string :=
  Path_from (size m) m l.

(** Modelled from the spec: [dEntryCache.Get] (the cache is not part of
    the sources at hand): the current entry of a key, or nothing. *)
Definition Get (key : dKey) : M (option ptr) :=
  read (λ w, index (d (this w)) !! key).

(** Modelled from the spec: [dEntryCache.Add]: a no-op when an entry with
    the same key exists; otherwise the entry is installed, as a root when
    there is no parent, and else under the parent, one level deeper, in
    the parent's children under its name. *)
Definition Add (entry : ptr) (parent : option ptr) : M unit :=
  λ w,
    match mem w !! entry with
    | None => (tt, w)
    | Some en =>
        match index (d (this w)) !! entry_key en with
        | Some _ => (tt, w)
        | None =>
            let attach m :=
              match parent with
              | None => m
              | Some q =>
                  alter (set_Depth (uint32_add (depth_of m q) 1)) entry
                        (AddChild q entry m)
              end in
            (tt, set_index <[entry_key en := entry]> (set_mem attach w))
        end
    end.

(** Modelled from the spec: [dEntryCache.Remove]: detaches the entry from
    its parent, evicts it and all its descendants from the key index, and
    releases it. *)
Definition Remove (entry : ptr) : M unit :=
  λ w,
    let doomed := subtree (size (mem w)) (mem w) entry in
    (tt, set_mem (λ m, Release entry (detach entry m))
           (set_index (evict (mem w) doomed) w)).

(** Modelled from the spec: [dEntryCache.MoveFrom]: detaches the entry
    from its parent and keeps it in the staging slot of the TID; an entry
    staged before for that TID is released. *)
Definition MoveFrom (t : N) (entry : ptr) : M unit :=
  λ w,
    let discard m :=
      match moveCache (d (this w)) !! t with
      | Some old => Release old m
      | None => m
      end in
    (tt, set_moveCache <[t := entry]>
           (set_mem (λ m, discard (detach entry m)) w)).

(** Modelled from the spec: [dEntryCache.MoveTo]: with a staged entry for
    the TID, renames it, re-attaches it under the new parent, sets its
    depth to the parent's plus one, fixes the depths of its descendants,
    calls [cb] on the new path, clears the slot and reports [true];
    without one, reports [false] and does nothing. *)
Definition MoveTo (t : N) (newParent : ptr) (newName : string)
    (cb : string → M (option error)) : M (bool * option error) :=
  λ w,
    match moveCache (d (this w)) !! t with
    | None => ((false, None), w)
    | Some entry =>
        (update (set_mem (alter (set_Name newName) entry)) ;;
         update (set_mem (AddChild newParent entry)) ;;
         update (set_mem (λ m,
           alter (set_Depth (uint32_add (depth_of m newParent) 1)) entry m)) ;;
         update (set_mem (fix_depths entry)) ;;
         newPath <- read (λ w', Path (mem w') entry) ;;
         err <- cb newPath ;;
         update (set_moveCache (delete t)) ;;
         ret (true, err)) w
    end.

(** Modelled from the spec: [dEntryCache.MoveClear]: discards the staged
    entry of the TID, if any. *)
Definition MoveClear (t : N) : M unit :=
  λ w,
    match moveCache (d (this w)) !! t with
    | None => (tt, w)
    | Some old =>
        (tt, set_moveCache (delete t) (set_mem (Release old) w))
    end.

(** ** The processor *)

(** The recursion gate [parentEntry.Depth >= 1 && !e.isRecursive]. *)
Definition gated (parentEntry : ptr) : M bool :=
  read (λ w, (1 <=? depth_of (mem w) parentEntry)%N
             && negb (isRecursive (this w))).

(** A cached parent passes the gate: the negation of the test above. *)
Definition eligible (w : world) (parentEntry : ptr) : Prop :=
  depth_of (mem w) parentEntry = 0%N ∨ isRecursive (this w) = true.

(** [l] is an entry that the step from [w] to [w'] created in the
    cache: the key index holds it afterwards, under a key that had no
    entry before. *)
Definition created (w w' : world) (l : ptr) : Prop :=
  ∃ k, index (d (this w)) !! k = None ∧ index (d (this w')) !! k = Some l.

(** A computation that leaves alone what [f] reads. *)
Definition preserves {A B : Type} (f : world → A) (c : M B) : Prop :=
  ∀ w, f (c w).2 = f w.

(** What the step from [w] to [w'] emitted. *)
Definition new_emissions (w w' : world) : list (emission * option error) :=
  drop (length (emitted w)) (emitted w').

(** A computation that calls [Emit] at most once and, when it does,
    returns what [Emit] returned. *)
Definition answers (c : M (option error)) : Prop :=
  ∀ w, emitted (c w).2 = emitted w
       ∨ ∃ call, emitted (c w).2 = emitted w ++ [(call, (c w).1)].

(** The body of [process], one branch of the [switch] per mask. *)
Definition process_body (pe : ProbeEvent) : M (option error) :=
  match dispatch pe with
  | KMonitor =>
      mm <- getMonitorPath (FileIno pe) (FileDevMajor pe) (FileDevMinor pe)
                          (FileName pe) ;;
      let monitorPath := mm.1 in
      if negb mm.2 then ret None else
      entry <- Get (fileKey pe) ;;
      parentEntry <- Get (parentKey pe) ;;
      entry <-
        match parentEntry with
        | None =>
            new {| Parent := None; Depth := depth monitorPath;
                   Children := ∅; Name := fullPath monitorPath;
                   Ino := FileIno pe; DevMajor := FileDevMajor pe;
                   DevMinor := FileDevMinor pe |}
        | Some q =>
            match entry with
            | None =>
                parentDepth <- read (λ w, depth_of (mem w) q) ;;
                new {| Parent := None; Depth := uint32_add parentDepth 1;
                       Children := ∅; Name := FileName pe;
                       Ino := FileIno pe; DevMajor := FileDevMajor pe;
                       DevMinor := FileDevMinor pe |}
            | Some en => ret en
            end
        end ;;
      Add entry parentEntry ;;
      if negb (isFromMove monitorPath) then ret None else
      entryPath <- read (λ w, Path (mem w) entry) ;;
      emit entryPath (tid monitorPath) IN_MOVED_TO
  | KCreate =>
      parentEntry <- Get (parentKey pe) ;;
      match parentEntry with
      | None => ret None
      | Some q =>
          g <- gated q ;;
          if g then ret None else
          entry <- new {| Parent := None; Depth := 0; Children := ∅;
                         Name := FileName pe; Ino := FileIno pe;
                         DevMajor := FileDevMajor pe;
                         DevMinor := FileDevMinor pe |} ;;
          Add entry (Some q) ;;
          entryPath <- read (λ w, Path (mem w) entry) ;;
          emit entryPath (TID (Meta pe)) IN_CREATE
      end
  | KModify =>
      entry <- Get (fileKey pe) ;;
      match entry with
      | None => ret None
      | Some en =>
          entryPath <- read (λ w, Path (mem w) en) ;;
          emit entryPath (TID (Meta pe)) IN_MODIFY
      end
  | KAttrib =>
      entry <- Get (fileKey pe) ;;
      match entry with
      | None => ret None
      | Some en =>
          entryPath <- read (λ w, Path (mem w) en) ;;
          emit entryPath (TID (Meta pe)) IN_ATTRIB
      end
  | KMoveFrom =>
      parentEntry <- Get (parentKey pe) ;;
      match parentEntry with
      | None => MoveClear (TID (Meta pe)) ;; ret None
      | Some q =>
          g <- gated q ;;
          if g then MoveClear (TID (Meta pe)) ;; ret None else
          entry <- read (λ w, GetChild (mem w) q (FileName pe)) ;;
          match entry with
          | None => ret None
          | Some en =>
              entryPath <- read (λ w, Path (mem w) en) ;;
              MoveFrom (TID (Meta pe)) en ;;
              emit entryPath (TID (Meta pe)) IN_MOVED_FROM
          end
      end
  | KMoveTo =>
      parentEntry <- Get (parentKey pe) ;;
      match parentEntry with
      | None => MoveClear (TID (Meta pe)) ;; ret None
      | Some q =>
          g <- gated q ;;
          if g then MoveClear (TID (Meta pe)) ;; ret None else
          r <- MoveTo (TID (Meta pe)) q (FileName pe)
                     (λ path, emit path (TID (Meta pe)) IN_MOVED_TO) ;;
          match r.2 with
          | Some err => ret (Some err)
          | None =>
              if r.1 then ret None else
              parentPath <- read (λ w, Path (mem w) q) ;;
              parentDepth <- read (λ w, depth_of (mem w) q) ;;
              walkAsync (filepath_Join parentPath (FileName pe))
                        (uint32_add parentDepth 1) (TID (Meta pe)) ;;
              ret None
          end
      end
  | KDelete =>
      parentEntry <- Get (parentKey pe) ;;
      match parentEntry with
      | None => ret None
      | Some q =>
          g <- gated q ;;
          if g then ret None else
          entry <- read (λ w, GetChild (mem w) q (FileName pe)) ;;
          match entry with
          | None => ret None
          | Some en =>
              entryPath <- read (λ w, Path (mem w) en) ;;
              Remove en ;;
              err <- emit entryPath (TID (Meta pe)) IN_DELETE ;;
              match err with
              | Some er => ret (Some er)
              | None => update (set_mem (Release en)) ;; ret None
              end
          end
      end
  | KUnknown => ret (Some "unknown event type")
  end.

(** [process]: the body, and the deferred [releaseProbeEvent] on the way
    out. *)
Definition process (pe : ProbeEvent) : M (option error) :=
  r <- process_body pe ;;
  releaseProbeEvent pe ;;
  ret r.

(** ** The constructor *)

(** Modelled from the spec: [newDirEntryCache] (the cache is not part of
    the sources at hand): a cache with no entry and no staged entry. *)
Definition newDirEntryCache : dEntryCache :=
  {| index := ∅; moveCache := ∅ |}.

Definition newEventProcessor (pt : T) (em : E) (recursive : bool)
    : eProcessor :=
  {| p := pt; e := em; d := newDirEntryCache; isRecursive := recursive |}.

(** ** Vocabulary for the further properties *)

(** The operation code each branch of [process] passes to [Emit]; the
    default branch has none. *)
Definition branch_op (k : eventKind) : N :=
  match k with
  | KMonitor => IN_MOVED_TO
  | KCreate => IN_CREATE
  | KModify => IN_MODIFY
  | KAttrib => IN_ATTRIB
  | KMoveFrom => IN_MOVED_FROM
  | KMoveTo => IN_MOVED_TO
  | KDelete => IN_DELETE
  | KUnknown => 0
  end.

(** The world [w] with the event [pe] back in its pool and nothing else
    changed. *)
Definition released (pe : ProbeEvent) (w : world) : world :=
  {| this := this w; mem := mem w; pool := pe :: pool w;
     emitted := emitted w; walks := walks w |}.

(** Every key of the index leads to a cell of the store that carries that
    key. *)
Definition index_consistent (w : world) : Prop :=
  ∀ k l, index (d (this w)) !! k = Some l →
         ∃ c, mem w !! l = Some c ∧ entry_key c = k.

Definition keeps_index_consistent {A : Type} (c : M A) : Prop :=
  ∀ w, index_consistent w → index_consistent (c w).2.

(** A computation whose calls of [Emit] all satisfy [P]. *)
Definition emits_with (P : emission → Prop) {A : Type} (c : M A) : Prop :=
  ∀ w, ∃ new, emitted (c w).2 = emitted w ++ new
              ∧ Forall (λ er, P er.1) new.

(** A computation that either calls [Emit] once and returns what it
    returned, or does not call it and returns nil. *)
Definition answers_or_nil (c : M (option error)) : Prop :=
  ∀ w, (emitted (c w).2 = emitted w ∧ (c w).1 = None)
       ∨ ∃ call, emitted (c w).2 = emitted w ++ [(call, (c w).1)].

End processor.

(** ** Fakes for the collaborators, and a small monitored tree *)

(** An emitter that always answers with its state. *)
#[global] Instance constEmitter : Emitter (option error) :=
  λ st _ _ _, (st, st).

(** A traverser that always answers with its state and ignores walks. *)
#[global] Instance constTraverser : pathTraverser (MonitorPath * bool) :=
  {| GetMonitorPath := λ st _ _ _ _, (st, st);
     WalkAsync := λ st _ _ _, st |}.

#[global] Instance slash : Filepath := λ a b, (a ++ "/" ++ b)%string.

Definition probe (k : eventKind) (t : N) (name : string) (fino pino : N)
    : ProbeEvent :=
  {| Meta := {| TID := t |};
     MaskMonitor := if k is KMonitor then 1 else 0;
     MaskCreate := if k is KCreate then 1 else 0;
     MaskModify := if k is KModify then 1 else 0;
     MaskAttrib := if k is KAttrib then 1 else 0;
     MaskMoveFrom := if k is KMoveFrom then 1 else 0;
     MaskMoveTo := if k is KMoveTo then 1 else 0;
     MaskDelete := if k is KDelete then 1 else 0;
     FileName := name; FileIno := fino; FileDevMajor := 0;
     FileDevMinor := 0; ParentIno := pino; ParentDevMajor := 0;
     ParentDevMinor := 0 |}.

(** The root "/m" (inode 1) with the child "sub" (inode 2), which holds
    "x" (inode 3). *)
Definition tree_store : gmap ptr dEntry :=
  {[ 1%positive :=
       {| Parent := None; Depth := 0;
          Children := {[ "sub" := 2%positive ]}; Name := "/m";
          Ino := 1; DevMajor := 0; DevMinor := 0 |};
     2%positive :=
       {| Parent := Some 1%positive; Depth := 1;
          Children := {[ "x" := 3%positive ]}; Name := "sub";
          Ino := 2; DevMajor := 0; DevMinor := 0 |};
     3%positive :=
       {| Parent := Some 2%positive; Depth := 2;
          Children := ∅; Name := "x";
          Ino := 3; DevMajor := 0; DevMinor := 0 |} ]}.

Definition tree_index : gmap dKey ptr :=
  {[ DKey 1 0 0 := 1%positive; DKey 2 0 0 := 2%positive;
     DKey 3 0 0 := 3%positive ]}.

Definition tree_world (recursive : bool) (answer : MonitorPath * bool)
    (sink : option error) (staged : gmap N ptr)
    : @world (MonitorPath * bool) (option error) :=
  {| this := {| p := answer; e := sink;
                d := {| index := tree_index; moveCache := staged |};
                isRecursive := recursive |};
     mem := tree_store; pool := []; emitted := []; walks := [] |}.

(** The same tree without "x", as a non-recursive monitor sees it. *)
Definition flat_world (answer : MonitorPath * bool) (sink : option error)
    (staged : gmap N ptr) : @world (MonitorPath * bool) (option error) :=
  {| this := {| p := answer; e := sink;
                d := {| index := delete (DKey 3 0 0) tree_index;
                        moveCache := staged |};
                isRecursive := false |};
     mem := alter (set_Children (λ _, ∅)) 2%positive
                  (delete 3%positive tree_store);
     pool := []; emitted := []; walks := [] |}.

Definition no_match : MonitorPath * bool :=
  ({| fullPath := ""; depth := 0; isFromMove := false; tid := 0 |}, false).

(** * Properties of the processor *)

Section facts.

Context {T E : Type} `{!pathTraverser T, !Emitter E, !Filepath}.

#[local] Abbreviation world := (@world T E).
#[local] Abbreviation M := (@M T E).

(** ** Store updates, cell by cell *)

Lemma cellwise_refl R `{!Reflexive R} m : cellwise R m m.
Proof. intros l. by destruct (m !! l); constructor. Qed.

Lemma cellwise_trans R `{!Transitive R} m1 m2 m3 :
  cellwise R m1 m2 → cellwise R m2 m3 → cellwise R m1 m3.
Proof.
  intros H12 H23 l. specialize (H12 l). specialize (H23 l).
  destruct H12 as [c1 c2 ?|]; inversion H23; subst; constructor.
  by etrans.
Qed.

Lemma cellwise_alter R `{!Reflexive R} (f : dEntry → dEntry) i m :
  (∀ c, R c (f c)) → cellwise R m (alter f i m).
Proof.
  intros Hf l. rewrite lookup_alter. case_decide; subst.
  - destruct (m !! l); constructor. apply Hf.
  - by apply cellwise_refl.
Qed.

Lemma cellwise_foldr_alter {A} R `{!Reflexive R, !Transitive R}
    (f : A → dEntry → dEntry) (g : A → ptr) (ls : list A) m :
  (∀ a c, R c (f a c)) →
  cellwise R m (foldr (λ a, alter (f a) (g a)) m ls).
Proof.
  intros Hf. induction ls as [|a ls IH]; simpl.
  - by apply cellwise_refl.
  - eapply cellwise_trans; [done|exact IH|]. by apply cellwise_alter.
Qed.

Lemma cellwise_lookup R m m' l c :
  cellwise R m m' → m !! l = Some c → ∃ c', m' !! l = Some c' ∧ R c c'.
Proof.
  intros Hm Hl. specialize (Hm l). rewrite Hl in Hm.
  inversion Hm; subst. eauto.
Qed.

Lemma lookup_foldr_alter_notin {A} (f : A → dEntry → dEntry) (g : A → ptr)
    (ls : list A) (m : gmap ptr dEntry) l :
  (∀ a, a ∈ ls → g a ≠ l) →
  foldr (λ a, alter (f a) (g a)) m ls !! l = m !! l.
Proof.
  induction ls as [|a ls IH]; simpl; [done|]. intros Hnot.
  rewrite lookup_alter_ne by (apply Hnot; left).
  apply IH. intros b Hb. apply Hnot. by right.
Qed.

(** [Release] touches the released subtree only. *)
Lemma Release_lookup_outside old (m : gmap ptr dEntry) l :
  l ∉ subtree (size m) m old → Release old m !! l = m !! l.
Proof.
  intros Hout. unfold Release.
  apply (lookup_foldr_alter_notin (λ _, unreference) (λ q, q)).
  intros a Ha Heq. apply Hout. by rewrite <-Heq.
Qed.

(** ** Running a computation step by step *)

Lemma bind_run {A B : Type} (c : M A) (k : A → M B) (w : world) :
  bind c k w = k (c w).1 (c w).2.
Proof. done. Qed.

Lemma process_run pe (w : world) :
  process pe w
  = ((process_body pe w).1,
     (releaseProbeEvent pe (process_body pe w).2).2).
Proof. done. Qed.

Ltac msimpl :=
  cbn [ret read update Get gated fst snd negb this d index moveCache mem p e
       isRecursive pool emitted walks set_mem set_index set_moveCache].
Ltac mstep := msimpl; repeat (rewrite bind_run; msimpl).
Ltac msimpl_in H :=
  cbn [ret read update Get gated fst snd negb this d index moveCache mem p e
       isRecursive pool emitted walks set_mem set_index set_moveCache] in H.
Ltac mstep_in H := msimpl_in H; repeat (rewrite bind_run in H; msimpl_in H).

Lemma gate_open (w : world) q :
  eligible w q →
  (1 <=? depth_of (mem w) q)%N && negb (isRecursive (this w)) = false.
Proof.
  intros [Hroot | Hrec]; [by rewrite Hroot | by rewrite Hrec, andb_false_r].
Qed.

Lemma gate_shut (w : world) q :
  (1 ≤ depth_of (mem w) q)%N → isRecursive (this w) = false →
  (1 <=? depth_of (mem w) q)%N && negb (isRecursive (this w)) = true.
Proof.
  intros Hdeep Hrec. rewrite Hrec, andb_true_r. by apply N.leb_le.
Qed.

(** ** Frame rules: what a computation leaves alone *)

Lemma preserves_ret {A B} (f : world → A) (b : B) : preserves f (ret b).
Proof. done. Qed.

Lemma preserves_bind {A B C} (f : world → A) (c : M B) (k : B → M C) :
  preserves f c → (∀ b, preserves f (k b)) → preserves f (bind c k).
Proof. intros Hc Hk w. unfold bind. by rewrite Hk, Hc. Qed.

Lemma preserves_read {A B} (f : world → A) (g : world → B) :
  preserves f (read g).
Proof. done. Qed.

Lemma preserves_update {A} (f : world → A) (g : world → world) :
  (∀ w, f (g w) = f w) → preserves f (update g).
Proof. intros Hg w. apply Hg. Qed.

Lemma preserves_Get {A} (f : world → A) k : preserves f (Get k).
Proof. done. Qed.

Lemma preserves_gated {A} (f : world → A) q : preserves f (gated q).
Proof. done. Qed.

Lemma preserves_MoveTo {A} (f : world → A) t q n cb :
  (∀ g w, f (set_mem g w) = f w) →
  (∀ g w, f (set_moveCache g w) = f w) →
  (∀ s, preserves f (cb s)) →
  preserves f (MoveTo t q n cb).
Proof.
  intros Hmem Hslot Hcb w. unfold MoveTo. case_match; [|done].
  unfold bind, update, read, ret. cbn [fst snd].
  by rewrite Hslot, Hcb, !Hmem.
Qed.

(** A call that does not touch what [f] reads. *)
Ltac frame_call :=
  by (intros ?;
      unfold Add, Remove, MoveFrom, MoveClear, new, emit, walkAsync,
        getMonitorPath;
      repeat case_match).

Ltac frame_step :=
  first
    [ apply preserves_ret | apply preserves_read | apply preserves_Get
    | apply preserves_gated
    | apply preserves_bind; [|intros ?]
    | apply preserves_update; done
    | apply preserves_MoveTo; [done|done|intros ?]
    | frame_call
    | case_match ].

Lemma process_body_pool pe : preserves pool (process_body pe).
Proof.
  unfold process_body. destruct (dispatch pe); repeat frame_step.
Qed.

Lemma dispatch_unknown pe :
  MaskMonitor pe ≠ 1%N → MaskCreate pe ≠ 1%N → MaskModify pe ≠ 1%N →
  MaskAttrib pe ≠ 1%N → MaskMoveFrom pe ≠ 1%N → MaskMoveTo pe ≠ 1%N →
  MaskDelete pe ≠ 1%N → dispatch pe = KUnknown.
Proof.
  intros. unfold dispatch.
  by repeat (rewrite (proj2 (N.eqb_neq _ 1)) by assumption).
Qed.

(** ** The pool *)

(** C3. Every call of [process] returns its probe event to the pool
    exactly once, whatever branch it takes and whatever it returns: the
    pool after the call is the pool before it with that one event pushed,
    and [process] is a total function, so this covers the normal return,
    the early returns, an emitter error and the unknown-mask error. *)
Theorem process_releases_event_once pe (w : world) :
  pool (process pe w).2 = pe :: pool w.
Proof.
  rewrite process_run. cbn [releaseProbeEvent snd pool].
  by rewrite process_body_pool.
Qed.

(** ** Unknown masks *)

(** C4. An event with none of the seven masks equal to 1 makes [process]
    return the unknown-event-type error; the processor, its cache and the
    store are as before, nothing is emitted and no walk is scheduled; the
    event is returned to the pool. *)
Theorem unknown_mask_is_rejected pe (w : world) :
  MaskMonitor pe ≠ 1%N → MaskCreate pe ≠ 1%N → MaskModify pe ≠ 1%N →
  MaskAttrib pe ≠ 1%N → MaskMoveFrom pe ≠ 1%N → MaskMoveTo pe ≠ 1%N →
  MaskDelete pe ≠ 1%N →
  process pe w
  = (Some "unknown event type",
     {| this := this w; mem := mem w; pool := pe :: pool w;
        emitted := emitted w; walks := walks w |}).
Proof.
  intros. rewrite process_run. unfold process_body.
  by rewrite dispatch_unknown.
Qed.

(** ** The recursion gate on Create and Delete *)

(** C7. With recursion disabled, a Create or a Delete under a cached
    parent of depth 1 or more changes nothing and emits nothing (only the
    event goes back to the pool); so such an event emits only when its
    parent is cached at depth 0. *)
Theorem gate_filters_deep_create_delete pe (w : world) :
  dispatch pe = KCreate ∨ dispatch pe = KDelete →
  isRecursive (this w) = false →
  (∀ q, index (d (this w)) !! parentKey pe = Some q →
        (1 ≤ depth_of (mem w) q)%N →
        process pe w
        = (None,
           {| this := this w; mem := mem w; pool := pe :: pool w;
              emitted := emitted w; walks := walks w |}))
  ∧ (emitted (process pe w).2 ≠ emitted w →
     ∃ q, index (d (this w)) !! parentKey pe = Some q
          ∧ depth_of (mem w) q = 0%N).
Proof.
  intros Hkind Hrec. split.
  - intros q Hq Hdeep. pose proof (gate_shut w q Hdeep Hrec) as Hg.
    rewrite process_run. unfold process_body.
    destruct Hkind as [-> | ->]; mstep; rewrite Hq; mstep; by rewrite Hg.
  - intros Hemit.
    destruct (index (d (this w)) !! parentKey pe) as [q|] eqn:Hq.
    + exists q. split; [done|].
      destruct (depth_of (mem w) q) as [|n] eqn:Hdepth; [done|].
      exfalso. apply Hemit.
      assert (1 ≤ depth_of (mem w) q)%N as Hdeep by (rewrite Hdepth; lia).
      pose proof (gate_shut w q Hdeep Hrec) as Hg.
      rewrite process_run. unfold process_body.
      destruct Hkind as [-> | ->]; mstep; rewrite Hq; mstep; by rewrite Hg.
    + exfalso. apply Hemit.
      rewrite process_run. unfold process_body.
      destruct Hkind as [-> | ->]; mstep; by rewrite Hq.
Qed.

(** ** Moves *)

(** C10. A MoveFrom under a cached parent that passes the gate, for a
    name that is not a child of that parent, returns nil and changes
    nothing but the pool: nothing is emitted, no walk is scheduled, and
    the rename staging map, hence the slot of the event's TID, is as
    before. *)
Theorem movefrom_of_unknown_child_is_inert pe (w : world) q :
  dispatch pe = KMoveFrom →
  index (d (this w)) !! parentKey pe = Some q →
  eligible w q →
  GetChild (mem w) q (FileName pe) = None →
  process pe w
  = (None,
     {| this := this w; mem := mem w; pool := pe :: pool w;
        emitted := emitted w; walks := walks w |})
  ∧ moveCache (d (this (process pe w).2)) !! TID (Meta pe)
    = moveCache (d (this w)) !! TID (Meta pe).
Proof.
  intros Hkind Hq Hopen Hchild.
  assert (process pe w
          = (None,
             {| this := this w; mem := mem w; pool := pe :: pool w;
                emitted := emitted w; walks := walks w |})) as Hrun.
  { rewrite process_run. unfold process_body. rewrite Hkind.
    mstep. rewrite Hq. mstep. rewrite (gate_open w q Hopen). mstep.
    by rewrite Hchild. }
  by rewrite Hrun.
Qed.

(** C5. A MoveTo under a cached parent that passes the gate, when no
    entry is staged for the event's TID, emits nothing and calls
    [WalkAsync] exactly once, with the join of the parent's path and the
    event's file name, the parent's depth plus one, and the event's TID;
    the cache and the store are as before and [process] returns nil. *)
Theorem moveto_without_staged_entry_walks pe (w : world) q :
  dispatch pe = KMoveTo →
  index (d (this w)) !! parentKey pe = Some q →
  eligible w q →
  moveCache (d (this w)) !! TID (Meta pe) = None →
  let newEntryPath := filepath_Join (Path (mem w) q) (FileName pe) in
  let newDepth := uint32_add (depth_of (mem w) q) 1 in
  (process pe w).1 = None
  ∧ emitted (process pe w).2 = emitted w
  ∧ walks (process pe w).2
    = (walks w ++ [(newEntryPath, newDepth, TID (Meta pe))])%list
  ∧ p (this (process pe w).2)
    = WalkAsync (p (this w)) newEntryPath newDepth (TID (Meta pe))
  ∧ d (this (process pe w).2) = d (this w)
  ∧ mem (process pe w).2 = mem w.
Proof.
  intros Hkind Hq Hopen Hslot.
  rewrite process_run. unfold process_body. rewrite Hkind.
  mstep. rewrite Hq. mstep. rewrite (gate_open w q Hopen). mstep.
  unfold MoveTo. rewrite Hslot. by mstep.
Qed.

(** C6. A MoveFrom or a MoveTo whose parent key is not cached, or whose
    cached parent has depth 1 or more while recursion is disabled, returns
    nil, emits nothing and schedules no walk; the key index is as before,
    the staging map is the one before without the slot of the event's TID,
    and the store differs only by the release of the entry that was
    staged there, if any: every cell outside that entry's subtree is
    untouched. *)
Theorem move_outside_clears_slot pe (w : world) :
  dispatch pe = KMoveFrom ∨ dispatch pe = KMoveTo →
  index (d (this w)) !! parentKey pe = None
  ∨ (∃ q, index (d (this w)) !! parentKey pe = Some q
          ∧ (1 ≤ depth_of (mem w) q)%N
          ∧ isRecursive (this w) = false) →
  let staged := moveCache (d (this w)) !! TID (Meta pe) in
  (process pe w).1 = None
  ∧ emitted (process pe w).2 = emitted w
  ∧ walks (process pe w).2 = walks w
  ∧ index (d (this (process pe w).2)) = index (d (this w))
  ∧ moveCache (d (this (process pe w).2))
    = delete (TID (Meta pe)) (moveCache (d (this w)))
  ∧ mem (process pe w).2
    = match staged with
      | Some old => Release old (mem w)
      | None => mem w
      end
  ∧ (∀ l, (∀ old, staged = Some old →
                  l ∉ subtree (size (mem w)) (mem w) old) →
          mem (process pe w).2 !! l = mem w !! l).
Proof.
  intros Hkind Hout staged.
  assert (process_body pe w
          = bind (MoveClear (TID (Meta pe))) (λ _, ret None) w) as Hbody.
  { unfold process_body.
    destruct Hout as [Hnone | (q & Hq & Hdeep & Hrec)].
    - destruct Hkind as [-> | ->]; mstep; by rewrite Hnone.
    - pose proof (gate_shut w q Hdeep Hrec) as Hg.
      destruct Hkind as [-> | ->]; mstep; rewrite Hq; mstep; by rewrite Hg. }
  rewrite process_run, Hbody. mstep. unfold MoveClear. subst staged.
  destruct (moveCache (d (this w)) !! TID (Meta pe)) as [old|] eqn:Hslot;
    cbn.
  - repeat split; try done.
    intros l Hl. apply Release_lookup_outside. by apply Hl.
  - repeat split; try done. by rewrite delete_id.
Qed.

(** ** Monitor records *)

Lemma Path_of_root (m : gmap ptr dEntry) l c :
  m !! l = Some c → Parent c = None → Path m l = Name c.
Proof.
  intros Hl Hroot. unfold Path.
  destruct (size m); simpl; by rewrite Hl, Hroot.
Qed.

Lemma Add_existing (w : world) entry parent en y :
  mem w !! entry = Some en →
  index (d (this w)) !! entry_key en = Some y →
  Add entry parent w = (tt, w).
Proof. intros Hen Hy. unfold Add. by rewrite Hen, Hy. Qed.

Lemma fresh_unallocated (m : gmap ptr dEntry) : m !! fresh (dom m) = None.
Proof. apply not_elem_of_dom, is_fresh. Qed.

(** C9. A Monitor record that the traverser acknowledges, for a key that
    already has an entry in the cache, leaves the cache as it is: the key
    index and the staging map are the same and every cell of the store is
    unchanged (the store may hold one more cell, the root entry that
    [process] builds and [Add] then ignores, which nothing refers to).
    Without [isFromMove] nothing is emitted and the result is nil; with
    it, exactly one IN_MOVED_TO is emitted, with the TID of the monitor
    record, at the path of the entry that [process] holds: the cached
    entry when the record's parent is cached, and else the root entry
    just built, whose path is the traverser's full path. *)
Theorem duplicate_monitor_record pe (w : world) t' mp x cx :
  dispatch pe = KMonitor →
  GetMonitorPath (p (this w)) (FileIno pe) (FileDevMajor pe)
                 (FileDevMinor pe) (FileName pe) = (t', (mp, true)) →
  index (d (this w)) !! fileKey pe = Some x →
  mem w !! x = Some cx →
  entry_key cx = fileKey pe →
  let entryPath :=
    match index (d (this w)) !! parentKey pe with
    | Some _ => Path (mem w) x
    | None => fullPath mp
    end in
  d (this (process pe w).2) = d (this w)
  ∧ mem w ⊆ mem (process pe w).2
  ∧ walks (process pe w).2 = walks w
  ∧ (isFromMove mp = false →
     (process pe w).1 = None ∧ emitted (process pe w).2 = emitted w)
  ∧ (isFromMove mp = true →
     emitted (process pe w).2
     = (emitted w
        ++ [((entryPath, tid mp, IN_MOVED_TO), (process pe w).1)])%list).
Proof.
  intros Hkind Hmatch Hx Hcx Hkey entryPath.
  rewrite process_run.
  destruct (process_body pe w) as [r w'] eqn:Hrun.
  unfold process_body in Hrun. rewrite Hkind in Hrun.
  mstep_in Hrun. cbn [getMonitorPath fst snd] in Hrun.
  rewrite Hmatch in Hrun. mstep_in Hrun.
  rewrite Hx in Hrun. subst entryPath.
  destruct (index (d (this w)) !! parentKey pe) as [q|] eqn:Hq;
    mstep_in Hrun.
  - erewrite Add_existing in Hrun; [|exact Hcx|by rewrite Hkey].
    destruct (isFromMove mp); mstep_in Hrun; cbn [emit] in Hrun;
      inversion Hrun; subst; cbn; by repeat split.
  - cbn [new] in Hrun. mstep_in Hrun.
    erewrite Add_existing in Hrun;
      [|apply lookup_insert_eq|cbn [mem this d index]; exact Hx].
    assert (mem w ⊆ <[fresh (dom (mem w)) :=
                       {| Parent := None; Depth := depth mp; Children := ∅;
                          Name := fullPath mp; Ino := FileIno pe;
                          DevMajor := FileDevMajor pe;
                          DevMinor := FileDevMinor pe |}]> (mem w)) as Hsub
      by apply insert_subseteq, fresh_unallocated.
    destruct (isFromMove mp); mstep_in Hrun; cbn [emit] in Hrun.
    + erewrite Path_of_root in Hrun; [|apply lookup_insert_eq|done].
      inversion Hrun; subst; cbn; by repeat split.
    + inversion Hrun; subst; cbn; by repeat split.
Qed.

(** ** The recursion gate and the depth of new entries *)

Lemma evict_lookup_Some (m : gmap ptr dEntry) ls (idx : gmap dKey ptr) k l :
  evict m ls idx !! k = Some l → idx !! k = Some l.
Proof.
  unfold evict. induction ls as [|a ls IH]; simpl; [done|].
  destruct (m !! a) as [en|]; [|done].
  rewrite lookup_delete. case_decide; [done|]. apply IH.
Qed.

Lemma AddChild_allocated q c (m : gmap ptr dEntry) l :
  is_Some (m !! l) → is_Some (AddChild q c m !! l).
Proof.
  intros Hl. unfold AddChild. rewrite !lookup_alter.
  repeat case_decide; subst; by rewrite ?fmap_is_Some.
Qed.

Lemma index_kept_without_Add_Remove pe :
  match dispatch pe with
  | KModify | KAttrib | KMoveFrom | KMoveTo | KUnknown =>
      preserves (λ w, index (d (this w))) (process_body pe)
  | _ => True
  end.
Proof.
  unfold process_body. destruct (dispatch pe); try done;
    repeat frame_step.
Qed.

Lemma new_run en (w : world) :
  new en w = (fresh (dom (mem w)), set_mem <[fresh (dom (mem w)) := en]> w).
Proof. done. Qed.

Lemma emit_d path pid op (w : world) :
  d (this (emit path pid op w).2) = d (this w).
Proof. done. Qed.

Lemma emit_mem path pid op (w : world) :
  mem (emit path pid op w).2 = mem w.
Proof. done. Qed.

(** C2, as the code has it. With recursion disabled, an entry that a call
    of [process] on any event but a Monitor record adds to the key index
    has depth 1: only the Create branch adds entries, and only under a
    parent of depth 0. The Monitor branch has no gate: it takes the depth
    from the traverser, or from the cached parent. *)
Theorem gate_bounds_created_depth pe (w : world) l :
  isRecursive (this w) = false →
  dispatch pe ≠ KMonitor →
  created w (process pe w).2 l →
  depth_of (mem (process pe w).2) l = 1%N.
Proof.
  intros Hrec Hkind (k & Hold & Hnew). revert Hnew.
  rewrite process_run. cbn [releaseProbeEvent snd this mem].
  pose proof (index_kept_without_Add_Remove pe) as Hkept.
  unfold process_body in *.
  destruct (dispatch pe) eqn:Hd; try done;
    try (rewrite (Hkept w); by rewrite Hold).
  - (* Create *)
    mstep.
    destruct (index (d (this w)) !! parentKey pe) as [q|] eqn:Hq;
      [|mstep; by rewrite Hold].
    mstep. rewrite Hrec, andb_true_r.
    destruct (N.leb_spec 1 (depth_of (mem w) q)) as [|Hroot];
      [mstep; by rewrite Hold|].
    mstep. rewrite new_run. mstep. rewrite emit_d, emit_mem.
    set (cell := {| Parent := None; Depth := 0; Children := ∅;
                    Name := FileName pe; Ino := FileIno pe;
                    DevMajor := FileDevMajor pe;
                    DevMinor := FileDevMinor pe |}).
    set (fr := fresh (dom (mem w))).
    unfold Add. cbn [mem set_mem]. rewrite lookup_insert_eq.
    cbn [this d index set_mem].
    destruct (index (d (this w)) !! entry_key cell) eqn:Hkey;
      [cbn; by rewrite Hold|].
    cbn [snd this d index mem set_index set_mem].
    rewrite lookup_insert. case_decide as Hk; [|by rewrite Hold].
    intros [= <-]. unfold depth_of at 1. rewrite lookup_alter_eq.
    destruct (AddChild_allocated q fr (<[fr:=cell]> (mem w)) fr) as [c Hc];
      [by rewrite lookup_insert_eq|].
    rewrite Hc. cbn. unfold depth_of. rewrite lookup_insert.
    case_decide; [done|]. fold (depth_of (mem w) q).
    assert (depth_of (mem w) q = 0%N) as -> by lia. done.
  - (* Delete *)
    mstep.
    destruct (index (d (this w)) !! parentKey pe) as [q|] eqn:Hq;
      [|mstep; by rewrite Hold].
    mstep. destruct (_ && _); [mstep; by rewrite Hold|]. mstep.
    destruct (GetChild (mem w) q (FileName pe)) as [x|];
      [|mstep; by rewrite Hold].
    mstep.
    case_match; mstep; rewrite ?emit_d;
      cbn [Remove snd this d index set_mem set_index];
      intros Hl%evict_lookup_Some; by rewrite Hold in Hl.
Qed.

(** ** What [process] emits and what it returns *)

(** A computation that emits at most once and, when it emits, returns
    what [Emit] returned. *)
Lemma answers_ret r : answers (ret r : M (option error)).
Proof. intros w. by left. Qed.

Lemma answers_emit path pid op :
  answers (emit path pid op : M (option error)).
Proof. intros w. right. by eexists. Qed.

Lemma answers_bind {A} (c : M A) (k : A → M (option error)) :
  preserves emitted c → (∀ a, answers (k a)) → answers (bind c k).
Proof.
  intros Hc Hk w. rewrite bind_run.
  destruct (Hk (c w).1 (c w).2) as [Hno | [call Hcall]].
  - left. by rewrite Hno, Hc.
  - right. exists call. by rewrite Hcall, Hc.
Qed.

Lemma answers_emit_then path pid op (k : option error → M (option error)) :
  (∀ err w, (k err w).1 = err ∧ emitted (k err w).2 = emitted w) →
  answers (bind (emit path pid op : M (option error)) k).
Proof.
  intros Hk w. rewrite bind_run. right. exists (path, pid, op).
  by destruct (Hk (emit path pid op w).1 (emit path pid op w).2) as [-> ->].
Qed.

Lemma answers_MoveTo t q n pid op
    (k : bool * option error → M (option error)) :
  (∀ b w, (k (b, None) w).1 = None ∧ emitted (k (b, None) w).2 = emitted w) →
  (∀ b err w, k (b, Some err) w = (Some err, w)) →
  answers (bind (MoveTo t q n
                        (λ path, emit path pid op)) k).
Proof.
  intros Hnil Herr w. rewrite bind_run. unfold MoveTo.
  destruct (moveCache (d (this w)) !! t) as [x|]; cbn [fst snd].
  - right. mstep. eexists. cbn [emit fst snd].
    match goal with |- context [Emit ?a ?b ?c ?d] =>
      destruct (Emit a b c d) as [e' [err|]] end; cbn [fst snd].
    + by rewrite Herr.
    + match goal with |- context [k (true, None) ?w0] =>
        by destruct (Hnil true w0) as [-> ->] end.
  - left. by destruct (Hnil false w) as [_ ->].
Qed.

Ltac answers_step :=
  first
    [ apply answers_ret | apply answers_emit
    | apply answers_emit_then; by intros [?|] ?
    | apply answers_MoveTo; [by intros [] ?|done]
    | apply answers_bind; [solve [repeat frame_step]|intros ?]
    | case_match ].

Lemma process_body_answers pe : answers (process_body pe).
Proof.
  unfold process_body. destruct (dispatch pe);
    repeat answers_step.
Qed.

Lemma process_answers pe : answers (process pe).
Proof.
  intros w. rewrite process_run. cbn [fst snd releaseProbeEvent emitted].
  exact (process_body_answers pe w).
Qed.

Lemma failed_emit_is_returned pe (w : world) call err :
  (call, Some err) ∈ new_emissions w (process pe w).2 →
  (process pe w).1 = Some err.
Proof.
  unfold new_emissions. intros Hin.
  destruct (process_answers pe w) as [Hno | [c Hc]].
  - rewrite Hno, drop_all in Hin. by apply elem_of_nil in Hin.
  - rewrite Hc, drop_app_length in Hin.
    apply list_elem_of_singleton in Hin. injection Hin as _ Hr.
    symmetry. exact Hr.
Qed.

(** ** The cache after each mutating branch *)

Lemma eligible_of_gate (w : world) q :
  (1 <=? depth_of (mem w) q)%N && negb (isRecursive (this w)) = false →
  eligible w q.
Proof.
  unfold eligible. intros [Hroot%N.leb_gt | Hrec%negb_false_iff]%andb_false_iff.
  - left. lia.
  - by right.
Qed.

(** An event under a parent that is not cached, or not eligible, emits
    nothing. *)
Lemma filtered_emits_nothing pe (w : world) :
  dispatch pe = KCreate ∨ dispatch pe = KDelete
  ∨ dispatch pe = KMoveFrom ∨ dispatch pe = KMoveTo →
  (∀ q, index (d (this w)) !! parentKey pe = Some q → ¬ eligible w q) →
  emitted (process pe w).2 = emitted w.
Proof.
  intros Hkind Hshut. rewrite process_run.
  cbn [releaseProbeEvent snd emitted]. unfold process_body.
  destruct (index (d (this w)) !! parentKey pe) as [q|] eqn:Hq.
  - assert ((1 <=? depth_of (mem w) q)%N && negb (isRecursive (this w))
            = true) as Hg.
    { apply not_false_iff_true. intros Hg%eligible_of_gate.
      by apply (Hshut q). }
    destruct Hkind as [-> | [-> | [-> | ->]]]; mstep; rewrite Hq; mstep;
      rewrite Hg; mstep; try done;
      unfold MoveClear; by case_match.
  - destruct Hkind as [-> | [-> | [-> | ->]]]; mstep; rewrite Hq; mstep;
      try done; unfold MoveClear; by case_match.
Qed.

Lemma AddChild_lookup_child q c (m : gmap ptr dEntry) cell :
  m !! c = Some cell →
  ∃ cell', AddChild q c m !! c = Some cell'
           ∧ Parent cell' = Some q ∧ Name cell' = Name cell
           ∧ entry_key cell' = entry_key cell.
Proof.
  intros Hc. unfold AddChild. rewrite !lookup_alter, Hc.
  repeat case_decide; subst; try done; eexists; by split.
Qed.

Lemma AddChild_lookup_parent q c (m : gmap ptr dEntry) :
  is_Some (m !! q) → GetChild (AddChild q c m) q (name_of m c) = Some c.
Proof.
  intros [cq Hq]. unfold GetChild, AddChild.
  rewrite lookup_alter_eq, lookup_alter.
  case_decide; subst; rewrite Hq;
    cbn [fmap option_fmap option_map mbind option_bind set_Children
         set_Parent Children];
    apply lookup_insert_eq.
Qed.

(** The Create branch under an eligible parent, for a key that has no
    entry yet: the new entry is in the key index and under its parent. *)
Lemma create_adds_entry pe (w : world) q :
  dispatch pe = KCreate →
  index (d (this w)) !! parentKey pe = Some q →
  eligible w q →
  index (d (this w)) !! fileKey pe = None →
  ∃ l, index (d (this (process pe w).2)) !! fileKey pe = Some l
       ∧ parent_of (mem (process pe w).2) l = Some q
       ∧ name_of (mem (process pe w).2) l = FileName pe
       ∧ (is_Some (mem w !! q) →
          GetChild (mem (process pe w).2) q (FileName pe) = Some l).
Proof.
  intros Hkind Hq Hopen Hfile. rewrite process_run.
  cbn [releaseProbeEvent snd this mem]. unfold process_body.
  rewrite Hkind. mstep. rewrite Hq. mstep. rewrite (gate_open w q Hopen).
  mstep. rewrite new_run. mstep. rewrite emit_d, emit_mem.
  set (cell := {| Parent := None; Depth := 0; Children := ∅;
                  Name := FileName pe; Ino := FileIno pe;
                  DevMajor := FileDevMajor pe;
                  DevMinor := FileDevMinor pe |}).
  set (fr := fresh (dom (mem w))).
  unfold Add. cbn [mem set_mem]. rewrite lookup_insert_eq.
  cbn [this d index set_mem]. change (entry_key cell) with (fileKey pe).
  rewrite Hfile. cbn [snd this d index mem set_index set_mem].
  exists fr. rewrite lookup_insert_eq. split; [done|].
  destruct (AddChild_lookup_child q fr (<[fr:=cell]> (mem w)) cell)
    as (cell' & Hcell' & Hparent & Hname & _); [apply lookup_insert_eq|].
  unfold parent_of, name_of. rewrite lookup_alter_eq, Hcell'. cbn.
  repeat split; [done..|].
  intros Hqa. unfold GetChild. rewrite lookup_alter.
  assert (is_Some (<[fr:=cell]> (mem w) !! q)) as Hqa'.
  { rewrite lookup_insert. by case_decide. }
  pose proof (AddChild_lookup_parent q fr _ Hqa') as Hchild.
  unfold name_of in Hchild. rewrite lookup_insert_eq in Hchild.
  unfold GetChild in Hchild.
  case_decide as Heq; [|exact Hchild].
  exfalso. rewrite <-Heq in Hqa. unfold fr in Hqa.
  rewrite fresh_unallocated in Hqa. by destruct Hqa.
Qed.

#[local] Instance same_links_refl : Reflexive same_links.
Proof. by intros c. Qed.

#[local] Instance same_links_trans : Transitive same_links.
Proof.
  intros c1 c2 c3 (? & ? & ? & ?) (? & ? & ? & ?).
  repeat split; congruence.
Qed.

#[local] Instance same_key_refl : Reflexive same_key.
Proof. by intros c. Qed.

#[local] Instance same_key_trans : Transitive same_key.
Proof. unfold same_key. intros c1 c2 c3 ? ?. congruence. Qed.

#[local] Instance no_new_child_refl n : Reflexive (no_new_child n).
Proof. intros c. by unfold no_new_child. Qed.

#[local] Instance no_new_child_trans n : Transitive (no_new_child n).
Proof. unfold no_new_child. intros c1 c2 c3 H12 H23 ?. auto. Qed.

Lemma fix_depths_same_links x m : cellwise same_links m (fix_depths x m).
Proof.
  unfold fix_depths.
  apply (cellwise_foldr_alter same_links (λ qd, set_Depth qd.2) fst).
  by intros a c.
Qed.

Lemma Release_same_key x m : cellwise same_key m (Release x m).
Proof.
  unfold Release.
  apply (cellwise_foldr_alter same_key (λ _, unreference) (λ q, q)).
  by intros a c.
Qed.

Lemma Release_no_new_child n x m :
  cellwise (no_new_child n) m (Release x m).
Proof.
  unfold Release.
  apply (cellwise_foldr_alter (no_new_child n) (λ _, unreference) (λ q, q)).
  by intros a c.
Qed.

Lemma RemoveChild_same_key q n m : cellwise same_key m (RemoveChild q n m).
Proof.
  unfold RemoveChild. destruct (GetChild m q n); [|by apply cellwise_refl].
  eapply cellwise_trans; [apply _| |];
    apply cellwise_alter; try apply _; by intros c.
Qed.

Lemma detach_same_key x m : cellwise same_key m (detach x m).
Proof.
  unfold detach. destruct (parent_of m x); [|by apply cellwise_refl].
  apply RemoveChild_same_key.
Qed.

Lemma GetChild_same_links m m' q n :
  cellwise same_links m m' → GetChild m' q n = GetChild m q n.
Proof.
  intros Hm. unfold GetChild. specialize (Hm q).
  destruct Hm as [c c' (_ & _ & Hch & _)|]; [|done]. cbn. by rewrite Hch.
Qed.

Lemma GetChild_no_new_child m m' q n :
  cellwise (no_new_child n) m m' →
  GetChild m q n = None → GetChild m' q n = None.
Proof.
  intros Hm. unfold GetChild. specialize (Hm q).
  destruct Hm as [c c' Hch|]; [|done]. cbn. apply Hch.
Qed.

Lemma RemoveChild_GetChild q n m : GetChild (RemoveChild q n m) q n = None.
Proof.
  unfold RemoveChild. destruct (GetChild m q n) as [c|] eqn:Hchild; [|done].
  unfold GetChild. rewrite lookup_alter_eq.
  destruct (alter (set_Parent None) c m !! q); [|done].
  cbn [fmap option_fmap option_map mbind option_bind set_Children Children].
  apply lookup_delete_eq.
Qed.

Lemma subtree_head fuel m x : ∃ rest, subtree fuel m x = x :: rest.
Proof. destruct fuel; by eexists. Qed.

Lemma evict_lookup_head m x rest (idx : gmap dKey ptr) cx :
  m !! x = Some cx → evict m (x :: rest) idx !! entry_key cx = None.
Proof. intros Hx. unfold evict. simpl. rewrite Hx. apply lookup_delete_eq. Qed.

(** The Delete branch under an eligible parent, for a known child: the
    child is out of the key index and no longer listed by its parent. *)
Lemma delete_evicts_entry pe (w : world) q x cx :
  dispatch pe = KDelete →
  index (d (this w)) !! parentKey pe = Some q →
  eligible w q →
  GetChild (mem w) q (FileName pe) = Some x →
  mem w !! x = Some cx →
  index (d (this (process pe w).2)) !! entry_key cx = None
  ∧ (Parent cx = Some q → Name cx = FileName pe →
     GetChild (mem (process pe w).2) q (FileName pe) = None).
Proof.
  intros Hkind Hq Hopen Hchild Hx. rewrite process_run.
  cbn [releaseProbeEvent snd this mem]. unfold process_body.
  rewrite Hkind. mstep. rewrite Hq. mstep. rewrite (gate_open w q Hopen).
  mstep. rewrite Hchild. mstep.
  destruct (subtree_head (size (mem w)) (mem w) x) as [rest Hsub].
  assert (GetChild (Release x (detach x (mem w))) q (FileName pe) = None
          ∨ ¬ (Parent cx = Some q ∧ Name cx = FileName pe)) as Hgone.
  { destruct (decide (Parent cx = Some q ∧ Name cx = FileName pe))
      as [[Hp Hn]|]; [left|by right].
    eapply GetChild_no_new_child; [apply Release_no_new_child|].
    unfold detach, parent_of, name_of. rewrite Hx. cbn. rewrite Hp, Hn.
    apply RemoveChild_GetChild. }
  case_match; mstep; rewrite ?emit_d, ?emit_mem;
    cbn [Remove snd this d index mem set_mem set_index]; rewrite Hsub;
    (split; [by apply evict_lookup_head|]); intros Hp Hn;
    destruct Hgone as [Hgone|[]]; try done.
  eapply GetChild_no_new_child; [apply Release_no_new_child|done].
Qed.

Lemma emit_emitted path pid op (w : world) :
  emitted (emit path pid op w).2
  = emitted w ++ [((path, pid, op), (emit path pid op w).1)].
Proof. done. Qed.

Lemma emit_walks path pid op (w : world) :
  walks (emit path pid op w).2 = walks w.
Proof. done. Qed.

(** The MoveTo branch under an eligible parent with a staged entry. *)
Lemma moveto_run pe (w : world) q x :
  dispatch pe = KMoveTo →
  index (d (this w)) !! parentKey pe = Some q →
  eligible w q →
  moveCache (d (this w)) !! TID (Meta pe) = Some x →
  let m' := reattached x q (FileName pe) (mem w) in
  mem (process pe w).2 = m'
  ∧ index (d (this (process pe w).2)) = index (d (this w))
  ∧ moveCache (d (this (process pe w).2))
    = delete (TID (Meta pe)) (moveCache (d (this w)))
  ∧ emitted (process pe w).2
    = emitted w
      ++ [((Path m' x, TID (Meta pe), IN_MOVED_TO), (process pe w).1)]
  ∧ walks (process pe w).2 = walks w.
Proof.
  intros Hkind Hq Hopen Hslot m'. rewrite process_run.
  cbn [releaseProbeEvent fst snd this mem emitted walks].
  unfold process_body.
  rewrite Hkind. mstep. rewrite Hq. mstep. rewrite (gate_open w q Hopen).
  mstep. unfold MoveTo. rewrite Hslot. mstep.
  fold (reattached x q (FileName pe) (mem w)). fold m'.
  case_match eqn:Hr; mstep;
    rewrite emit_d, emit_mem, emit_emitted, emit_walks, Hr; by mstep.
Qed.

Lemma reattached_lookup x q n (m : gmap ptr dEntry) cx :
  m !! x = Some cx →
  ∃ cx', reattached x q n m !! x = Some cx'
         ∧ Parent cx' = Some q ∧ Name cx' = n
         ∧ entry_key cx' = entry_key cx.
Proof.
  intros Hx. unfold reattached.
  destruct (AddChild_lookup_child q x (alter (set_Name n) x m)
              (set_Name n cx)) as (c1 & Hc1 & Hp1 & Hn1 & Hk1);
    [by rewrite lookup_alter_eq, Hx|].
  set (m1 := alter _ x (AddChild q x _)).
  assert (m1 !! x = Some (set_Depth
            (uint32_add (depth_of (AddChild q x (alter (set_Name n) x m)) q)
               1) c1)) as Hm1
    by (unfold m1; by rewrite lookup_alter_eq, Hc1).
  destruct (cellwise_lookup _ _ _ _ _ (fix_depths_same_links x m1) Hm1)
    as (c2 & Hc2 & Hp2 & Hn2 & _ & Hk2).
  exists c2. split; [done|]. cbn in *.
  repeat split; [congruence..|]. etrans; [exact Hk2|exact Hk1].
Qed.

Lemma reattached_child x q n (m : gmap ptr dEntry) :
  is_Some (m !! x) → is_Some (m !! q) →
  GetChild (reattached x q n m) q n = Some x.
Proof.
  intros [cx Hx] Hq. unfold reattached.
  erewrite GetChild_same_links; [|apply fix_depths_same_links].
  erewrite GetChild_same_links;
    [|apply cellwise_alter; [apply _|by intros c]].
  assert (name_of (alter (set_Name n) x m) x = n) as Hn
    by (unfold name_of; by rewrite lookup_alter_eq, Hx).
  rewrite <-Hn at 2. apply AddChild_lookup_parent.
  rewrite lookup_alter. case_decide; subst; by rewrite ?fmap_is_Some.
Qed.

Lemma no_new_emission (w w' : world) call :
  emitted w' = emitted w → call ∉ new_emissions w w'.
Proof.
  intros Heq. unfold new_emissions. rewrite Heq, drop_all.
  apply not_elem_of_nil.
Qed.

Lemma eligible_dec (w : world) q : eligible w q ∨ ¬ eligible w q.
Proof.
  destruct ((1 <=? depth_of (mem w) q)%N && negb (isRecursive (this w)))
    eqn:Hg.
  - right. intros Hopen. by rewrite (gate_open w q Hopen) in Hg.
  - left. by apply eligible_of_gate.
Qed.

(** An event that emits under the gate has a cached, eligible parent. *)
Lemma emitting_parent_is_eligible pe (w : world) call :
  dispatch pe = KCreate ∨ dispatch pe = KDelete
  ∨ dispatch pe = KMoveFrom ∨ dispatch pe = KMoveTo →
  call ∈ new_emissions w (process pe w).2 →
  ∃ q, index (d (this w)) !! parentKey pe = Some q ∧ eligible w q.
Proof.
  intros Hkind Hcall.
  destruct (index (d (this w)) !! parentKey pe) as [q|] eqn:Hq.
  - destruct (eligible_dec w q) as [Hopen|Hshut]; [by exists q|].
    exfalso. eapply no_new_emission; [|exact Hcall].
    apply filtered_emits_nothing; [done|]. intros q' Hq'. congruence.
  - exfalso. eapply no_new_emission; [|exact Hcall].
    apply filtered_emits_nothing; [done|]. intros q' Hq'. congruence.
Qed.

Lemma delete_of_unknown_child_emits_nothing pe (w : world) q :
  dispatch pe = KDelete →
  index (d (this w)) !! parentKey pe = Some q →
  GetChild (mem w) q (FileName pe) = None →
  emitted (process pe w).2 = emitted w.
Proof.
  intros Hkind Hq Hchild. rewrite process_run.
  cbn [releaseProbeEvent snd emitted]. unfold process_body.
  rewrite Hkind. mstep. rewrite Hq. mstep.
  case_match; mstep; [done|]. by rewrite Hchild.
Qed.

Lemma moveto_without_staged_emits_nothing pe (w : world) q :
  dispatch pe = KMoveTo →
  index (d (this w)) !! parentKey pe = Some q →
  moveCache (d (this w)) !! TID (Meta pe) = None →
  emitted (process pe w).2 = emitted w.
Proof.
  intros Hkind Hq Hslot. rewrite process_run.
  cbn [releaseProbeEvent snd emitted]. unfold process_body.
  rewrite Hkind. mstep. rewrite Hq. mstep.
  case_match; mstep; unfold MoveClear, MoveTo; rewrite Hslot; by mstep.
Qed.

(** ** Emitter errors *)

(** C8. When the call of [Emit] that [process] makes returns an error,
    [process] returns that error, and the cache keeps the mutation made
    before the call: after a Create the new entry is in the key index,
    under its parent and with its name; after a Delete the child is out
    of the key index and its parent no longer lists it; after a MoveTo
    with a staged entry that entry carries the new parent and the new
    name, and the staging slot is empty. *)
Theorem failed_emit_is_returned_and_cache_kept pe (w : world) call err :
  (call, Some err) ∈ new_emissions w (process pe w).2 →
  (process pe w).1 = Some err
  ∧ (dispatch pe = KCreate →
     index (d (this w)) !! fileKey pe = None →
     ∃ q l, index (d (this w)) !! parentKey pe = Some q
            ∧ index (d (this (process pe w).2)) !! fileKey pe = Some l
            ∧ parent_of (mem (process pe w).2) l = Some q
            ∧ name_of (mem (process pe w).2) l = FileName pe)
  ∧ (dispatch pe = KDelete →
     ∃ q x, index (d (this w)) !! parentKey pe = Some q
            ∧ GetChild (mem w) q (FileName pe) = Some x
            ∧ ∀ cx, mem w !! x = Some cx →
                index (d (this (process pe w).2)) !! entry_key cx = None
                ∧ (Parent cx = Some q → Name cx = FileName pe →
                   GetChild (mem (process pe w).2) q (FileName pe) = None))
  ∧ (dispatch pe = KMoveTo →
     ∃ q x, index (d (this w)) !! parentKey pe = Some q
            ∧ moveCache (d (this w)) !! TID (Meta pe) = Some x
            ∧ moveCache (d (this (process pe w).2)) !! TID (Meta pe) = None
            ∧ ∀ cx, mem w !! x = Some cx →
                ∃ cx', mem (process pe w).2 !! x = Some cx'
                       ∧ Parent cx' = Some q ∧ Name cx' = FileName pe
                       ∧ entry_key cx' = entry_key cx).
Proof.
  intros Hfail. split; [by eapply failed_emit_is_returned|].
  split; [|split].
  - intros Hkind Hfile.
    destruct (emitting_parent_is_eligible pe w _ (or_introl Hkind) Hfail)
      as (q & Hq & Hopen).
    destruct (create_adds_entry pe w q Hkind Hq Hopen Hfile)
      as (l & Hl & Hp & Hn & _).
    by exists q, l.
  - intros Hkind.
    destruct (emitting_parent_is_eligible pe w _
                (or_intror (or_introl Hkind)) Hfail) as (q & Hq & Hopen).
    destruct (GetChild (mem w) q (FileName pe)) as [x|] eqn:Hchild.
    + exists q, x. split; [done|]. split; [done|]. intros cx Hx.
      by apply (delete_evicts_entry pe w q x cx).
    + exfalso. eapply no_new_emission; [|exact Hfail].
      by eapply delete_of_unknown_child_emits_nothing.
  - intros Hkind.
    destruct (emitting_parent_is_eligible pe w _
                (or_intror (or_intror (or_intror Hkind))) Hfail)
      as (q & Hq & Hopen).
    destruct (moveCache (d (this w)) !! TID (Meta pe)) as [x|] eqn:Hslot.
    + exists q, x.
      destruct (moveto_run pe w q x Hkind Hq Hopen Hslot)
        as (Hmem & _ & Hmove & _).
      split; [done|]. split; [done|].
      split; [by rewrite Hmove, lookup_delete_eq|].
      intros cx Hx. rewrite Hmem. by apply reattached_lookup.
    + exfalso. eapply no_new_emission; [|exact Hfail].
      by eapply moveto_without_staged_emits_nothing.
Qed.

(** ** Rename pairs *)

(** The MoveFrom branch under an eligible parent, for a known child. *)
Lemma movefrom_run pe (w : world) q x :
  dispatch pe = KMoveFrom →
  index (d (this w)) !! parentKey pe = Some q →
  eligible w q →
  GetChild (mem w) q (FileName pe) = Some x →
  mem (process pe w).2
  = match moveCache (d (this w)) !! TID (Meta pe) with
    | Some old => Release old (detach x (mem w))
    | None => detach x (mem w)
    end
  ∧ index (d (this (process pe w).2)) = index (d (this w))
  ∧ moveCache (d (this (process pe w).2))
    = <[TID (Meta pe) := x]> (moveCache (d (this w)))
  ∧ emitted (process pe w).2
    = emitted w
      ++ [((Path (mem w) x, TID (Meta pe), IN_MOVED_FROM),
           (process pe w).1)]
  ∧ walks (process pe w).2 = walks w.
Proof.
  intros Hkind Hq Hopen Hchild. rewrite process_run.
  cbn [releaseProbeEvent fst snd this mem emitted walks].
  unfold process_body.
  rewrite Hkind. mstep. rewrite Hq. mstep. rewrite (gate_open w q Hopen).
  mstep. rewrite Hchild. mstep.
  rewrite emit_d, emit_mem, emit_emitted, emit_walks.
  cbn [MoveFrom snd]. by mstep.
Qed.

Lemma GetChild_alter (f : dEntry → dEntry) l (m : gmap ptr dEntry) q n :
  (∀ c, Children (f c) = Children c) →
  GetChild (alter f l m) q n = GetChild m q n.
Proof.
  intros Hf. unfold GetChild. rewrite lookup_alter.
  case_decide; [subst|done]. destruct (m !! q); [|done]. cbn.
  by rewrite Hf.
Qed.

Lemma AddChild_other_child q c (m : gmap ptr dEntry) q' n' :
  (q', n') ≠ (q, name_of m c) →
  GetChild (AddChild q c m) q' n' = GetChild m q' n'.
Proof.
  intros Hne. unfold AddChild, GetChild. rewrite !lookup_alter.
  destruct (decide (q = q')) as [->|];
    destruct (decide (c = q')) as [->|];
    destruct (m !! q') as [cq|] eqn:Hcq; try done;
    cbn [fmap option_fmap option_map mbind option_bind set_Children
         set_Parent Children].
  all: apply lookup_insert_ne; congruence.
Qed.

Lemma reattached_other_child x q n (m : gmap ptr dEntry) q' n' :
  is_Some (m !! x) →
  (q', n') ≠ (q, n) →
  GetChild (reattached x q n m) q' n' = GetChild m q' n'.
Proof.
  intros [cx Hx] Hne. unfold reattached.
  erewrite GetChild_same_links; [|apply fix_depths_same_links].
  rewrite GetChild_alter by done.
  rewrite AddChild_other_child.
  - by apply GetChild_alter.
  - unfold name_of. by rewrite lookup_alter_eq, Hx.
Qed.

(** C1. A MoveFrom that detaches the cached child [x] of an eligible
    cached parent, followed by a MoveTo with the same TID whose parent
    [q2] is cached and eligible: afterwards the key index still holds [x]
    for its key, [x] has [q2] as parent and the new name, [q2] lists it
    under that name and the old parent no longer lists it under the old
    one, the staging slot is empty, and the two calls emitted exactly
    IN_MOVED_FROM at the path [x] had before and then IN_MOVED_TO at the
    path it has after, and scheduled no walk. *)
Theorem movefrom_then_moveto_renames pe1 pe2 (w : world) q1 x cx q2 :
  dispatch pe1 = KMoveFrom →
  dispatch pe2 = KMoveTo →
  TID (Meta pe2) = TID (Meta pe1) →
  index (d (this w)) !! parentKey pe1 = Some q1 →
  eligible w q1 →
  GetChild (mem w) q1 (FileName pe1) = Some x →
  mem w !! x = Some cx →
  index (d (this w)) !! entry_key cx = Some x →
  let w1 := (process pe1 w).2 in
  index (d (this w1)) !! parentKey pe2 = Some q2 →
  eligible w1 q2 →
  let w2 := (process pe2 w1).2 in
  index (d (this w2)) !! entry_key cx = Some x
  ∧ (∃ cx', mem w2 !! x = Some cx' ∧ entry_key cx' = entry_key cx
            ∧ Parent cx' = Some q2 ∧ Name cx' = FileName pe2)
  ∧ (is_Some (mem w1 !! q2) →
     GetChild (mem w2) q2 (FileName pe2) = Some x)
  ∧ (Parent cx = Some q1 → Name cx = FileName pe1 →
     (q1, FileName pe1) ≠ (q2, FileName pe2) →
     GetChild (mem w2) q1 (FileName pe1) = None)
  ∧ moveCache (d (this w2)) !! TID (Meta pe1) = None
  ∧ (emitted w2).*1
    = (emitted w).*1
      ++ [(Path (mem w) x, TID (Meta pe1), IN_MOVED_FROM);
          (Path (mem w2) x, TID (Meta pe2), IN_MOVED_TO)]
  ∧ walks w2 = walks w.
Proof.
  intros Hk1 Hk2 Htid Hq1 Hopen1 Hchild Hx Hidx w1 Hq2 Hopen2 w2.
  destruct (movefrom_run pe1 w q1 x Hk1 Hq1 Hopen1 Hchild)
    as (Hmem1 & Hidx1 & Hmove1 & Hemit1 & Hwalk1).
  fold w1 in Hmem1, Hidx1, Hmove1, Hemit1, Hwalk1.
  assert (moveCache (d (this w1)) !! TID (Meta pe2) = Some x) as Hslot
    by (by rewrite Hmove1, Htid, lookup_insert_eq).
  destruct (moveto_run pe2 w1 q2 x Hk2 Hq2 Hopen2 Hslot)
    as (Hmem2 & Hidx2 & Hmove2 & Hemit2 & Hwalk2).
  fold w2 in Hmem2, Hidx2, Hmove2, Hemit2, Hwalk2.
  assert (cellwise same_key (mem w) (mem w1)) as Hkeys.
  { rewrite Hmem1. destruct (moveCache (d (this w)) !! TID (Meta pe1)).
    - eapply cellwise_trans; [apply _|apply detach_same_key|].
      apply Release_same_key.
    - apply detach_same_key. }
  destruct (cellwise_lookup _ _ _ _ _ Hkeys Hx) as (c1 & Hc1 & Hkey1).
  destruct (reattached_lookup x q2 (FileName pe2) (mem w1) c1 Hc1)
    as (c2 & Hc2 & Hp2 & Hn2 & Hkey2).
  rewrite <-Hmem2 in Hc2.
  split; [by rewrite Hidx2, Hidx1|].
  split; [exists c2; repeat split; [done| |done..]; by rewrite Hkey2|].
  split; [intros Hq2a; rewrite Hmem2; by apply reattached_child|].
  split.
  { intros Hp Hn Hne. rewrite Hmem2.
    rewrite reattached_other_child by done.
    rewrite Hmem1.
    assert (GetChild (detach x (mem w)) q1 (FileName pe1) = None) as Hgone.
    { unfold detach, parent_of, name_of. rewrite Hx. cbn. rewrite Hp, Hn.
      apply RemoveChild_GetChild. }
    destruct (moveCache (d (this w)) !! TID (Meta pe1)); [|done].
    eapply GetChild_no_new_child; [apply Release_no_new_child|done]. }
  split; [by rewrite Hmove2, Htid, lookup_delete_eq|].
  split; [|by rewrite Hwalk2].
  rewrite Hemit2, Hemit1, !fmap_app, <-Hmem2, <-app_assoc. done.
Qed.

(** * Further properties of [process] *)

(** ** Modify and Attrib *)

(** X1. A Modify or an Attrib for a subject that is not in the cache
    returns nil and changes nothing but the pool. *)
Theorem modify_attrib_of_unknown_subject_is_inert pe (w : world) :
  dispatch pe = KModify ∨ dispatch pe = KAttrib →
  index (d (this w)) !! fileKey pe = None →
  process pe w = (None, released pe w).
Proof.
  intros Hkind Hfile. rewrite process_run. unfold process_body.
  destruct Hkind as [-> | ->]; mstep; by rewrite Hfile.
Qed.

(** X2. A Modify or an Attrib for a cached subject calls [Emit] exactly
    once, at the subject's path, with the event's TID and the code of the
    branch, and returns what [Emit] returned; the cache, the store and the
    traverser are as before. No recursion gate applies: the depth of the
    subject and [isRecursive] play no role. *)
Theorem modify_attrib_of_cached_subject_emits pe (w : world) x :
  dispatch pe = KModify ∨ dispatch pe = KAttrib →
  index (d (this w)) !! fileKey pe = Some x →
  let r := Emit (e (this w)) (Path (mem w) x) (TID (Meta pe))
                (branch_op (dispatch pe)) in
  process pe w
  = (r.2,
     {| this := {| p := p (this w); e := r.1; d := d (this w);
                   isRecursive := isRecursive (this w) |};
        mem := mem w; pool := pe :: pool w;
        emitted := emitted w
                   ++ [((Path (mem w) x, TID (Meta pe),
                         branch_op (dispatch pe)), r.2)];
        walks := walks w |}).
Proof.
  intros Hkind Hfile r. subst r. rewrite process_run. unfold process_body.
  destruct Hkind as [Hk | Hk]; rewrite Hk; mstep; by rewrite Hfile.
Qed.

(** ** Monitor records the traverser does not acknowledge *)

(** X3. When [MaskMonitor] is 1 and [GetMonitorPath] reports no match,
    [process] returns nil whatever the other masks are; only the
    traverser's own state and the pool change. *)
Theorem unacknowledged_monitor_is_dropped pe (w : world) t' mp :
  MaskMonitor pe = 1%N →
  GetMonitorPath (p (this w)) (FileIno pe) (FileDevMajor pe)
                 (FileDevMinor pe) (FileName pe) = (t', (mp, false)) →
  process pe w
  = (None,
     {| this := {| p := t'; e := e (this w); d := d (this w);
                   isRecursive := isRecursive (this w) |};
        mem := mem w; pool := pe :: pool w; emitted := emitted w;
        walks := walks w |}).
Proof.
  intros Hmask Hmatch. rewrite process_run. unfold process_body, dispatch.
  rewrite Hmask. cbn [N.eqb Pos.eqb]. mstep.
  cbn [getMonitorPath fst snd]. rewrite Hmatch. by mstep.
Qed.

(** ** Create and Delete outside the cache *)

(** X4. A Create or a Delete whose parent is not in the cache returns nil
    and changes nothing but the pool, whether recursion is enabled or
    not. *)
Theorem create_delete_under_uncached_parent_is_inert pe (w : world) :
  dispatch pe = KCreate ∨ dispatch pe = KDelete →
  index (d (this w)) !! parentKey pe = None →
  process pe w = (None, released pe w).
Proof.
  intros Hkind Hparent. rewrite process_run. unfold process_body.
  destruct Hkind as [-> | ->]; mstep; by rewrite Hparent.
Qed.

(** X5. A Delete for a name that its cached parent does not hold returns
    nil and changes nothing but the pool, whether the parent passes the
    recursion gate or not. *)
Theorem delete_of_unknown_child_is_inert pe (w : world) q :
  dispatch pe = KDelete →
  index (d (this w)) !! parentKey pe = Some q →
  GetChild (mem w) q (FileName pe) = None →
  process pe w = (None, released pe w).
Proof.
  intros Hkind Hq Hchild. rewrite process_run. unfold process_body.
  rewrite Hkind. mstep. rewrite Hq. mstep.
  case_match; mstep; [done|]. by rewrite Hchild.
Qed.

(** ** Create, Delete and MoveFrom inside the cache *)

Lemma Add_new (w : world) entry parent en :
  mem w !! entry = Some en →
  index (d (this w)) !! entry_key en = None →
  (Add entry parent w).2
  = set_index <[entry_key en := entry]>
      (set_mem (λ m, match parent with
                     | None => m
                     | Some q =>
                         alter (set_Depth (uint32_add (depth_of m q) 1))
                               entry (AddChild q entry m)
                     end) w).
Proof. intros Hen Hkey. unfold Add. by rewrite Hen, Hkey. Qed.

(** X6. A Create under a cached, eligible parent, for a key that has no
    entry yet, allocates one entry, indexes it under the event's file key
    and attaches it under the parent with the event's file name, one level
    below the parent; no other cell than the parent's changes, the staging
    map is as before, and [Emit] is called exactly once, with IN_CREATE at
    the path of the new entry and the event's TID; its result is the
    result of [process]. *)
Theorem create_adds_child_and_emits pe (w : world) q :
  dispatch pe = KCreate →
  index (d (this w)) !! parentKey pe = Some q →
  eligible w q →
  is_Some (mem w !! q) →
  index (d (this w)) !! fileKey pe = None →
  ∃ l, mem w !! l = None
       ∧ index (d (this (process pe w).2))
         = <[fileKey pe := l]> (index (d (this w)))
       ∧ mem (process pe w).2 !! l
         = Some {| Parent := Some q;
                   Depth := uint32_add (depth_of (mem w) q) 1;
                   Children := ∅; Name := FileName pe; Ino := FileIno pe;
                   DevMajor := FileDevMajor pe;
                   DevMinor := FileDevMinor pe |}
       ∧ GetChild (mem (process pe w).2) q (FileName pe) = Some l
       ∧ (∀ l', l' ≠ l → l' ≠ q →
                mem (process pe w).2 !! l' = mem w !! l')
       ∧ moveCache (d (this (process pe w).2)) = moveCache (d (this w))
       ∧ emitted (process pe w).2
         = emitted w
           ++ [((Path (mem (process pe w).2) l, TID (Meta pe), IN_CREATE),
                (process pe w).1)]
       ∧ walks (process pe w).2 = walks w.
Proof.
  intros Hkind Hq Hopen Hqa Hfile.
  set (l := fresh (dom (mem w))).
  assert (mem w !! l = None) as Hl by apply fresh_unallocated.
  assert (l ≠ q) as Hlq by (intros ->; rewrite Hl in Hqa; by destruct Hqa).
  exists l. split; [done|].
  rewrite process_run. cbn [releaseProbeEvent fst snd this mem emitted walks].
  unfold process_body.
  rewrite Hkind. mstep. rewrite Hq. mstep. rewrite (gate_open w q Hopen).
  mstep. rewrite new_run. mstep. fold l.
  set (cell := {| Parent := None; Depth := 0; Children := ∅;
                  Name := FileName pe; Ino := FileIno pe;
                  DevMajor := FileDevMajor pe;
                  DevMinor := FileDevMinor pe |}).
  rewrite emit_d, emit_mem, emit_emitted, emit_walks.
  rewrite (Add_new _ l (Some q) cell);
    [|apply lookup_insert_eq|exact Hfile].
  mstep.
  assert (depth_of (<[l:=cell]> (mem w)) q = depth_of (mem w) q) as Hdepth
    by (unfold depth_of; by rewrite lookup_insert_ne).
  rewrite Hdepth.
  split; [done|]. split.
  { rewrite lookup_alter_eq. unfold AddChild.
    rewrite lookup_alter_ne, lookup_alter_eq, lookup_insert_eq by done.
    done. }
  split.
  { unfold GetChild. rewrite lookup_alter_ne by done.
    pose proof (AddChild_lookup_parent q l (<[l:=cell]> (mem w))) as Hchild.
    unfold name_of, GetChild in Hchild. rewrite lookup_insert_eq in Hchild.
    apply Hchild. by rewrite lookup_insert_ne. }
  split; [|done].
  intros l' Hl' Hq'. unfold AddChild.
  by rewrite !lookup_alter_ne, lookup_insert_ne.
Qed.

Lemma evict_lookup_elem m ls (idx : gmap dKey ptr) y cy :
  y ∈ ls → m !! y = Some cy → evict m ls idx !! entry_key cy = None.
Proof.
  intros Hin Hy. unfold evict. induction ls as [|a ls IH]; simpl.
  - by apply elem_of_nil in Hin.
  - apply elem_of_cons in Hin as [<-|Hin].
    + rewrite Hy. apply lookup_delete_eq.
    + destruct (m !! a) as [ca|]; [|by apply IH].
      rewrite lookup_delete. case_decide; [done|]. by apply IH.
Qed.

(** X7. A Delete of a known child of a cached, eligible parent calls
    [Emit] exactly once, with IN_DELETE, the event's TID and the path the
    child had before it was removed, and returns what [Emit] returned.
    The child and all its descendants are out of the key index, which
    gains nothing; the staging map is as before; a child that knows its
    parent and name is no longer listed by that parent. *)
Theorem delete_removes_subtree_and_emits pe (w : world) q x :
  dispatch pe = KDelete →
  index (d (this w)) !! parentKey pe = Some q →
  eligible w q →
  GetChild (mem w) q (FileName pe) = Some x →
  emitted (process pe w).2
  = emitted w
    ++ [((Path (mem w) x, TID (Meta pe), IN_DELETE), (process pe w).1)]
  ∧ (∀ y cy, y ∈ subtree (size (mem w)) (mem w) x → mem w !! y = Some cy →
             index (d (this (process pe w).2)) !! entry_key cy = None)
  ∧ (∀ k l, index (d (this (process pe w).2)) !! k = Some l →
            index (d (this w)) !! k = Some l)
  ∧ (∀ cx, mem w !! x = Some cx → Parent cx = Some q →
           Name cx = FileName pe →
           GetChild (mem (process pe w).2) q (FileName pe) = None)
  ∧ moveCache (d (this (process pe w).2)) = moveCache (d (this w))
  ∧ walks (process pe w).2 = walks w.
Proof.
  intros Hkind Hq Hopen Hchild.
  assert (∀ cx, mem w !! x = Some cx → Parent cx = Some q →
                Name cx = FileName pe →
                GetChild (mem (process pe w).2) q (FileName pe) = None)
    as Hgone.
  { intros cx Hx. by apply (delete_evicts_entry pe w q x cx). }
  revert Hgone. rewrite process_run.
  cbn [releaseProbeEvent fst snd this mem emitted walks].
  unfold process_body.
  rewrite Hkind. mstep. rewrite Hq. mstep. rewrite (gate_open w q Hopen).
  mstep. rewrite Hchild. mstep. intros Hgone.
  case_match eqn:Hr; mstep;
    rewrite emit_d, emit_emitted, emit_walks, Hr;
    cbn [Remove snd this d index moveCache emitted walks set_mem set_index];
    (split; [done|]); (split; [intros y cy; apply evict_lookup_elem|]);
    (split; [intros k l; apply evict_lookup_Some|]); by split.
Qed.

(** X8. A MoveFrom of a known child of a cached, eligible parent stages
    the child in the slot of the event's TID, replacing what was staged
    there, and calls [Emit] exactly once, with IN_MOVED_FROM, the event's
    TID and the path the child had before it was detached; the result of
    [Emit] is the result of [process]. The staged entry keeps its key, no
    walk is scheduled, and a child that knows its parent and name is no
    longer listed by that parent. *)
Theorem movefrom_stages_child_and_emits pe (w : world) q x :
  dispatch pe = KMoveFrom →
  index (d (this w)) !! parentKey pe = Some q →
  eligible w q →
  GetChild (mem w) q (FileName pe) = Some x →
  moveCache (d (this (process pe w).2))
  = <[TID (Meta pe) := x]> (moveCache (d (this w)))
  ∧ emitted (process pe w).2
    = emitted w
      ++ [((Path (mem w) x, TID (Meta pe), IN_MOVED_FROM),
           (process pe w).1)]
  ∧ walks (process pe w).2 = walks w
  ∧ (∀ cx, mem w !! x = Some cx →
           ∃ cx', mem (process pe w).2 !! x = Some cx'
                  ∧ entry_key cx' = entry_key cx)
  ∧ (∀ cx, mem w !! x = Some cx → Parent cx = Some q →
           Name cx = FileName pe →
           GetChild (mem (process pe w).2) q (FileName pe) = None).
Proof.
  intros Hkind Hq Hopen Hchild.
  destruct (movefrom_run pe w q x Hkind Hq Hopen Hchild)
    as (Hmem & _ & Hmove & Hemit & Hwalk).
  split; [done|]. split; [done|]. split; [done|].
  assert (cellwise same_key (mem w) (mem (process pe w).2)) as Hkeys.
  { rewrite Hmem. destruct (moveCache (d (this w)) !! TID (Meta pe)).
    - eapply cellwise_trans; [apply _|apply detach_same_key|].
      apply Release_same_key.
    - apply detach_same_key. }
  split.
  - intros cx Hx. by apply (cellwise_lookup _ _ _ _ _ Hkeys Hx).
  - intros cx Hx Hp Hn. rewrite Hmem.
    assert (GetChild (detach x (mem w)) q (FileName pe) = None) as Hgone.
    { unfold detach, parent_of, name_of. rewrite Hx. cbn. rewrite Hp, Hn.
      apply RemoveChild_GetChild. }
    destruct (moveCache (d (this w)) !! TID (Meta pe)); [|done].
    eapply GetChild_no_new_child; [apply Release_no_new_child|done].
Qed.

(** ** Monitor records for new entries *)

(** X9. An acknowledged Monitor record for a key that has no entry, under
    a parent that is not cached, installs a root: one new cell, named by
    the traverser's full path, at the traverser's depth, without parent,
    indexed under the event's file key; the rest of the store and the
    staging map are as before. Without [isFromMove] nothing is emitted;
    with it, IN_MOVED_TO is emitted once at the full path with the TID of
    the monitor path, and the result of [Emit] is the result of
    [process]. *)
Theorem monitor_installs_root pe (w : world) t' mp :
  dispatch pe = KMonitor →
  GetMonitorPath (p (this w)) (FileIno pe) (FileDevMajor pe)
                 (FileDevMinor pe) (FileName pe) = (t', (mp, true)) →
  index (d (this w)) !! parentKey pe = None →
  index (d (this w)) !! fileKey pe = None →
  ∃ l, mem w !! l = None
       ∧ mem (process pe w).2
         = <[l := {| Parent := None; Depth := depth mp; Children := ∅;
                     Name := fullPath mp; Ino := FileIno pe;
                     DevMajor := FileDevMajor pe;
                     DevMinor := FileDevMinor pe |}]> (mem w)
       ∧ index (d (this (process pe w).2))
         = <[fileKey pe := l]> (index (d (this w)))
       ∧ moveCache (d (this (process pe w).2)) = moveCache (d (this w))
       ∧ walks (process pe w).2 = walks w
       ∧ (isFromMove mp = false →
          (process pe w).1 = None ∧ emitted (process pe w).2 = emitted w)
       ∧ (isFromMove mp = true →
          emitted (process pe w).2
          = emitted w
            ++ [((fullPath mp, tid mp, IN_MOVED_TO), (process pe w).1)]).
Proof.
  intros Hkind Hmatch Hparent Hfile.
  exists (fresh (dom (mem w))). split; [apply fresh_unallocated|].
  rewrite process_run. cbn [releaseProbeEvent fst snd this mem emitted walks].
  unfold process_body. rewrite Hkind.
  mstep. cbn [getMonitorPath fst snd]. rewrite Hmatch. mstep.
  rewrite Hfile, Hparent. mstep. rewrite new_run. mstep.
  set (cell := {| Parent := None; Depth := depth mp; Children := ∅;
                  Name := fullPath mp; Ino := FileIno pe;
                  DevMajor := FileDevMajor pe;
                  DevMinor := FileDevMinor pe |}).
  rewrite (Add_new _ _ None cell); [|apply lookup_insert_eq|exact Hfile].
  destruct (isFromMove mp); mstep.
  - rewrite emit_d, emit_mem, emit_emitted, emit_walks. mstep.
    erewrite Path_of_root; [|apply lookup_insert_eq|done].
    by repeat split.
  - by repeat split.
Qed.

(** X10. An acknowledged Monitor record for a key that has no entry, under
    a cached parent, adds a child: a new cell with the event's file name,
    one level below the parent, attached under the parent and indexed
    under the event's file key. No recursion gate is consulted: this holds
    whatever [isRecursive] and the parent's depth are. Without
    [isFromMove] nothing is emitted; with it, IN_MOVED_TO is emitted once
    at the path of the new entry with the TID of the monitor path. *)
Theorem monitor_adds_child pe (w : world) t' mp q :
  dispatch pe = KMonitor →
  GetMonitorPath (p (this w)) (FileIno pe) (FileDevMajor pe)
                 (FileDevMinor pe) (FileName pe) = (t', (mp, true)) →
  index (d (this w)) !! parentKey pe = Some q →
  is_Some (mem w !! q) →
  index (d (this w)) !! fileKey pe = None →
  ∃ l, mem w !! l = None
       ∧ index (d (this (process pe w).2))
         = <[fileKey pe := l]> (index (d (this w)))
       ∧ mem (process pe w).2 !! l
         = Some {| Parent := Some q;
                   Depth := uint32_add (depth_of (mem w) q) 1;
                   Children := ∅; Name := FileName pe; Ino := FileIno pe;
                   DevMajor := FileDevMajor pe;
                   DevMinor := FileDevMinor pe |}
       ∧ GetChild (mem (process pe w).2) q (FileName pe) = Some l
       ∧ (∀ l', l' ≠ l → l' ≠ q →
                mem (process pe w).2 !! l' = mem w !! l')
       ∧ walks (process pe w).2 = walks w
       ∧ (isFromMove mp = false →
          (process pe w).1 = None ∧ emitted (process pe w).2 = emitted w)
       ∧ (isFromMove mp = true →
          emitted (process pe w).2
          = emitted w
            ++ [((Path (mem (process pe w).2) l, tid mp, IN_MOVED_TO),
                 (process pe w).1)]).
Proof.
  intros Hkind Hmatch Hq Hqa Hfile.
  set (l := fresh (dom (mem w))).
  assert (mem w !! l = None) as Hl by apply fresh_unallocated.
  assert (l ≠ q) as Hlq by (intros ->; rewrite Hl in Hqa; by destruct Hqa).
  exists l. split; [done|].
  rewrite process_run. cbn [releaseProbeEvent fst snd this mem emitted walks].
  unfold process_body. rewrite Hkind.
  mstep. cbn [getMonitorPath fst snd]. rewrite Hmatch. mstep.
  rewrite Hfile, Hq. mstep. rewrite new_run. mstep. fold l.
  set (cell := {| Parent := None;
                  Depth := uint32_add (depth_of (mem w) q) 1;
                  Children := ∅; Name := FileName pe; Ino := FileIno pe;
                  DevMajor := FileDevMajor pe;
                  DevMinor := FileDevMinor pe |}).
  rewrite (Add_new _ l (Some q) cell);
    [|apply lookup_insert_eq|exact Hfile].
  assert (depth_of (<[l:=cell]> (mem w)) q = depth_of (mem w) q) as Hdepth
    by (unfold depth_of; by rewrite lookup_insert_ne).
  set (m' := alter (set_Depth
                      (uint32_add (depth_of (<[l:=cell]> (mem w)) q) 1)) l
                   (AddChild q l (<[l:=cell]> (mem w)))).
  assert (m' !! l
          = Some {| Parent := Some q;
                    Depth := uint32_add (depth_of (mem w) q) 1;
                    Children := ∅; Name := FileName pe; Ino := FileIno pe;
                    DevMajor := FileDevMajor pe;
                    DevMinor := FileDevMinor pe |}) as Hcell.
  { unfold m'. rewrite Hdepth, lookup_alter_eq. unfold AddChild.
    rewrite lookup_alter_ne, lookup_alter_eq, lookup_insert_eq by done.
    done. }
  assert (GetChild m' q (FileName pe) = Some l) as Hchild.
  { unfold m', GetChild. rewrite lookup_alter_ne by done.
    pose proof (AddChild_lookup_parent q l (<[l:=cell]> (mem w))) as Hc.
    unfold name_of, GetChild in Hc. rewrite lookup_insert_eq in Hc.
    apply Hc. by rewrite lookup_insert_ne. }
  assert (∀ l', l' ≠ l → l' ≠ q → m' !! l' = mem w !! l') as Hframe.
  { intros l' Hl' Hq'. unfold m', AddChild.
    by rewrite !lookup_alter_ne, lookup_insert_ne. }
  destruct (isFromMove mp); mstep;
    rewrite ?emit_d, ?emit_mem, ?emit_emitted, ?emit_walks; mstep;
    fold m'; by repeat split.
Qed.

(** ** Where results and emissions come from *)

Lemma answers_or_nil_ret : answers_or_nil (ret None : M (option error)).
Proof. intros w. by left. Qed.

Lemma answers_or_nil_emit path pid op :
  answers_or_nil (emit path pid op : M (option error)).
Proof. intros w. right. by eexists. Qed.

Lemma answers_or_nil_bind {A} (c : M A) (k : A → M (option error)) :
  preserves emitted c → (∀ a, answers_or_nil (k a)) →
  answers_or_nil (bind c k).
Proof.
  intros Hc Hk w. rewrite bind_run.
  destruct (Hk (c w).1 (c w).2) as [[Hno Hnil] | [call Hcall]].
  - left. by rewrite Hno, Hc.
  - right. exists call. by rewrite Hcall, Hc.
Qed.

Lemma answers_or_nil_emit_then path pid op
    (k : option error → M (option error)) :
  (∀ err w, (k err w).1 = err ∧ emitted (k err w).2 = emitted w) →
  answers_or_nil (bind (emit path pid op : M (option error)) k).
Proof.
  intros Hk w. rewrite bind_run. right. exists (path, pid, op).
  by destruct (Hk (emit path pid op w).1 (emit path pid op w).2) as [-> ->].
Qed.

Lemma answers_or_nil_MoveTo t q n pid op
    (k : bool * option error → M (option error)) :
  (∀ b w, (k (b, None) w).1 = None ∧ emitted (k (b, None) w).2 = emitted w) →
  (∀ b err w, k (b, Some err) w = (Some err, w)) →
  answers_or_nil (bind (MoveTo t q n (λ path, emit path pid op)) k).
Proof.
  intros Hnil Herr w. rewrite bind_run. unfold MoveTo.
  destruct (moveCache (d (this w)) !! t) as [x|]; cbn [fst snd].
  - right. mstep. eexists. cbn [emit fst snd].
    match goal with |- context [Emit ?a ?b ?c ?d] =>
      destruct (Emit a b c d) as [e' [err|]] end; cbn [fst snd].
    + by rewrite Herr.
    + match goal with |- context [k (true, None) ?w0] =>
        by destruct (Hnil true w0) as [-> ->] end.
  - left. by destruct (Hnil false w) as [-> ->].
Qed.

Ltac answers_or_nil_step :=
  first
    [ apply answers_or_nil_ret | apply answers_or_nil_emit
    | apply answers_or_nil_emit_then; by intros [?|] ?
    | apply answers_or_nil_MoveTo; [by intros [] ?|done]
    | apply answers_or_nil_bind; [solve [repeat frame_step]|intros ?]
    | case_match ].

Lemma process_body_answers_or_nil pe :
  dispatch pe ≠ KUnknown → answers_or_nil (process_body pe).
Proof.
  intros Hkind. unfold process_body. destruct (dispatch pe); try done;
    repeat answers_or_nil_step.
Qed.

(** X11. A call of [process] calls [Emit] at most once. When it does, it
    returns what [Emit] returned; when it does not, it returns nil, except
    for an event with no known mask, for which it returns the
    unknown-event-type error. So a non-nil result is either that error or
    the emitter's. *)
Theorem process_result_provenance pe (w : world) :
  (new_emissions w (process pe w).2 = []
   ∧ (process pe w).1
     = if dispatch pe is KUnknown then Some "unknown event type" else None)
  ∨ ∃ call, new_emissions w (process pe w).2 = [(call, (process pe w).1)].
Proof.
  unfold new_emissions. rewrite process_run.
  cbn [releaseProbeEvent fst snd emitted].
  assert (dispatch pe = KUnknown ∨ dispatch pe ≠ KUnknown) as [Hu|Hk]
    by (destruct (dispatch pe); (by left) || by right).
  - left. unfold process_body. rewrite Hu. cbn. by rewrite drop_all.
  - destruct (process_body_answers_or_nil pe Hk w) as [[Hno Hnil]|[c Hc]].
    + left. rewrite Hno, drop_all, Hnil. by destruct (dispatch pe).
    + right. exists c. by rewrite Hc, drop_app_length.
Qed.

Lemma emits_with_preserves {A} P (c : M A) :
  preserves emitted c → emits_with P c.
Proof.
  intros Hc w. exists []. by rewrite Hc, app_nil_r.
Qed.

Lemma emits_with_emit (P : emission → Prop) path pid op :
  P (path, pid, op) → emits_with P (emit path pid op : M (option error)).
Proof.
  intros HP w. eexists. split; [apply emit_emitted|].
  by constructor.
Qed.

Lemma emits_with_bind {A B} P (c : M A) (k : A → M B) :
  emits_with P c → (∀ a, emits_with P (k a)) → emits_with P (bind c k).
Proof.
  intros Hc Hk w. rewrite bind_run.
  destruct (Hc w) as (new1 & Hnew1 & HP1).
  destruct (Hk (c w).1 (c w).2) as (new2 & Hnew2 & HP2).
  exists (new1 ++ new2). split.
  - by rewrite Hnew2, Hnew1, app_assoc.
  - by apply Forall_app.
Qed.

Lemma emits_with_MoveTo P t q n (cb : string → M (option error)) :
  (∀ s, emits_with P (cb s)) → emits_with P (MoveTo t q n cb).
Proof.
  intros Hcb w. unfold MoveTo.
  destruct (moveCache (d (this w)) !! t) as [x|].
  - mstep.
    match goal with |- context [cb ?s ?w0] =>
      destruct (Hcb s w0) as (new & Hnew & HP) end.
    exists new. split; [|done]. exact Hnew.
  - exists []. by rewrite app_nil_r.
Qed.

Ltac emits_with_step :=
  first
    [ apply emits_with_emit; by split
    | apply emits_with_MoveTo; intros ?
    | apply emits_with_preserves; solve [repeat frame_step]
    | apply emits_with_bind; [|intros ?]
    | case_match ].

(** X12. Every call of [Emit] that [process] makes carries the operation
    code of the branch taken: IN_MOVED_TO for Monitor and MoveTo,
    IN_CREATE, IN_MODIFY, IN_ATTRIB, IN_MOVED_FROM and IN_DELETE for the
    others; outside the Monitor branch it carries the TID of the event. *)
Theorem emission_carries_branch_op_and_tid pe (w : world) call r :
  (call, r) ∈ new_emissions w (process pe w).2 →
  call.2 = branch_op (dispatch pe)
  ∧ (dispatch pe ≠ KMonitor → call.1.2 = TID (Meta pe)).
Proof.
  assert (emits_with (λ c, c.2 = branch_op (dispatch pe)
                           ∧ (dispatch pe ≠ KMonitor
                              → c.1.2 = TID (Meta pe)))
                     (process_body pe)) as Hbody.
  { unfold process_body. destruct (dispatch pe); repeat emits_with_step. }
  unfold new_emissions. rewrite process_run.
  cbn [releaseProbeEvent fst snd emitted].
  destruct (Hbody w) as (new & Hnew & HP).
  rewrite Hnew, drop_app_length. intros Hin.
  rewrite Forall_forall in HP. apply (HP _ Hin).
Qed.

(** ** Walks *)

Lemma walks_kept_outside_MoveTo pe :
  dispatch pe ≠ KMoveTo → preserves walks (process_body pe).
Proof.
  intros Hkind. unfold process_body. destruct (dispatch pe); try done;
    repeat frame_step.
Qed.

(** X13. [process] calls [WalkAsync] only in the MoveTo branch, at most
    once, with the TID of the event, and only when no entry was staged for
    that TID; a call that schedules a walk emits nothing and returns
    nil. *)
Theorem walk_only_for_unpaired_moveto pe (w : world) :
  walks (process pe w).2 = walks w
  ∨ (dispatch pe = KMoveTo
     ∧ moveCache (d (this w)) !! TID (Meta pe) = None
     ∧ (process pe w).1 = None
     ∧ emitted (process pe w).2 = emitted w
     ∧ ∃ path dep,
         walks (process pe w).2 = walks w ++ [(path, dep, TID (Meta pe))]).
Proof.
  assert (dispatch pe = KMoveTo ∨ dispatch pe ≠ KMoveTo) as [Hk|Hk]
    by (destruct (dispatch pe); (by left) || by right).
  2: { left. rewrite process_run. cbn [releaseProbeEvent snd walks].
       by apply walks_kept_outside_MoveTo. }
  rewrite process_run. cbn [releaseProbeEvent fst snd walks emitted].
  unfold process_body. rewrite Hk. mstep.
  destruct (index (d (this w)) !! parentKey pe) as [q|]; mstep.
  2: { left. unfold MoveClear. by case_match. }
  case_match; mstep.
  { left. unfold MoveClear. by case_match. }
  unfold MoveTo.
  destruct (moveCache (d (this w)) !! TID (Meta pe)) as [x|] eqn:Hslot.
  - left. mstep. case_match; mstep; by rewrite emit_walks.
  - right. mstep. repeat split; try done. by eexists _, _.
Qed.

(** ** A new processor *)

(** X14. A processor fresh from [newEventProcessor] has an empty cache, so
    that every event with a known mask other than Monitor returns nil and
    changes nothing but the pool: only an acknowledged Monitor record can
    start the cache. *)
Theorem new_processor_ignores_all_but_monitor pe (w : world) pt em recursive :
  this w = newEventProcessor pt em recursive →
  dispatch pe ≠ KMonitor →
  dispatch pe ≠ KUnknown →
  process pe w = (None, released pe w).
Proof.
  intros Hnew Hmon Hunk. destruct w as [th m pl es ws].
  cbn [this] in Hnew. subst th.
  rewrite process_run. unfold process_body, released.
  destruct (dispatch pe); try done; mstep;
    cbn [newEventProcessor newDirEntryCache d index]; rewrite lookup_empty;
    mstep; try done;
    unfold MoveClear;
    cbn [this newEventProcessor newDirEntryCache d moveCache];
    by rewrite lookup_empty.
Qed.

(** ** What each branch may touch *)

(** X15. [process] never changes [isRecursive]. It changes the traverser
    only in the Monitor and MoveTo branches, the rename staging map only in
    the MoveFrom and MoveTo branches, and the key index only in the
    Monitor, Create and Delete branches. *)
Theorem branch_footprint pe (w : world) :
  isRecursive (this (process pe w).2) = isRecursive (this w)
  ∧ (dispatch pe ≠ KMonitor → dispatch pe ≠ KMoveTo →
     p (this (process pe w).2) = p (this w))
  ∧ (dispatch pe ≠ KMoveFrom → dispatch pe ≠ KMoveTo →
     moveCache (d (this (process pe w).2)) = moveCache (d (this w)))
  ∧ (dispatch pe ≠ KMonitor → dispatch pe ≠ KCreate →
     dispatch pe ≠ KDelete →
     index (d (this (process pe w).2)) = index (d (this w))).
Proof.
  rewrite process_run. cbn [releaseProbeEvent snd this].
  split; [|split; [|split]].
  - assert (preserves (λ w, isRecursive (this w)) (process_body pe)) as Hf.
    { unfold process_body. destruct (dispatch pe); repeat frame_step. }
    apply Hf.
  - intros Hmon Hto.
    assert (preserves (λ w, p (this w)) (process_body pe)) as Hf.
    { unfold process_body. destruct (dispatch pe); try done;
        repeat frame_step. }
    apply Hf.
  - intros Hfrom Hto.
    assert (preserves (λ w, moveCache (d (this w))) (process_body pe)) as Hf.
    { unfold process_body. destruct (dispatch pe); try done;
        repeat frame_step. }
    apply Hf.
  - intros Hmon Hcreate Hdelete.
    pose proof (index_kept_without_Add_Remove pe) as Hf.
    destruct (dispatch pe); try done; apply Hf.
Qed.

(** ** The key index stays consistent *)

Lemma index_consistent_step (w w' : world) :
  index_consistent w →
  cellwise same_key (mem w) (mem w') →
  (∀ k l, index (d (this w')) !! k = Some l →
          index (d (this w)) !! k = Some l) →
  index_consistent w'.
Proof.
  intros Hw Hmem Hidx k l Hk. destruct (Hw k l (Hidx k l Hk)) as (c & Hc & Hkey).
  destruct (cellwise_lookup _ _ _ _ _ Hmem Hc) as (c' & Hc' & Hkey').
  exists c'. split; [done|]. unfold same_key in Hkey'. congruence.
Qed.

Lemma AddChild_same_key q c m : cellwise same_key m (AddChild q c m).
Proof.
  unfold AddChild.
  eapply cellwise_trans; [apply _| |];
    apply cellwise_alter; try apply _; by intros en.
Qed.

Lemma fix_depths_same_key x m : cellwise same_key m (fix_depths x m).
Proof.
  intros l. destruct (fix_depths_same_links x m l) as [c c' (_ & _ & _ & Hk)|];
    by constructor.
Qed.

Lemma reattached_same_key x q n m : cellwise same_key m (reattached x q n m).
Proof.
  unfold reattached.
  eapply cellwise_trans; [apply _| |apply fix_depths_same_key].
  eapply cellwise_trans; [apply _| |apply cellwise_alter; [apply _|done]].
  eapply cellwise_trans; [apply _| |apply AddChild_same_key].
  apply cellwise_alter; [apply _|done].
Qed.

Lemma keeps_index_consistent_still {A} (c : M A) :
  (∀ w, (c w).2 = w) → keeps_index_consistent c.
Proof. intros Hc w Hw. by rewrite Hc. Qed.

Lemma keeps_index_consistent_bind {A B} (c : M A) (k : A → M B) :
  keeps_index_consistent c → (∀ a, keeps_index_consistent (k a)) →
  keeps_index_consistent (bind c k).
Proof. intros Hc Hk w Hw. rewrite bind_run. by apply Hk, Hc. Qed.

Lemma keeps_index_consistent_set_mem f :
  (∀ m, cellwise same_key m (f m)) →
  keeps_index_consistent (update (set_mem f) : M unit).
Proof.
  intros Hf w Hw. by apply (index_consistent_step w); [|apply Hf|].
Qed.

Lemma keeps_index_consistent_new en :
  keeps_index_consistent (new en : M ptr).
Proof.
  intros w Hw k l Hk. destruct (Hw k l Hk) as (c & Hc & Hkey).
  exists c. split; [|done]. rewrite new_run. cbn [snd mem set_mem].
  rewrite lookup_insert_ne; [done|]. intros <-.
  by rewrite fresh_unallocated in Hc.
Qed.

Lemma keeps_index_consistent_emit path pid op :
  keeps_index_consistent (emit path pid op : M (option error)).
Proof. intros w Hw. exact Hw. Qed.

Lemma keeps_index_consistent_walkAsync path dep t :
  keeps_index_consistent (walkAsync path dep t : M unit).
Proof. intros w Hw. exact Hw. Qed.

Lemma keeps_index_consistent_getMonitorPath i a b n :
  keeps_index_consistent (getMonitorPath i a b n : M (MonitorPath * bool)).
Proof. intros w Hw. exact Hw. Qed.

Lemma keeps_index_consistent_Add entry parent :
  keeps_index_consistent (Add entry parent : M unit).
Proof.
  intros w Hw. unfold Add.
  destruct (mem w !! entry) as [en|] eqn:Hen; [|done].
  destruct (index (d (this w)) !! entry_key en) eqn:Hkey; [done|].
  cbn [snd].
  set (attach := λ m : gmap ptr dEntry,
         match parent with
         | Some q => alter (set_Depth (uint32_add (depth_of m q) 1)) entry
                           (AddChild q entry m)
         | None => m
         end).
  assert (cellwise same_key (mem w) (attach (mem w))) as Hmem.
  { unfold attach. destruct parent as [q|]; [|by apply cellwise_refl].
    eapply cellwise_trans; [apply _|apply AddChild_same_key|].
    apply cellwise_alter; [apply _|done]. }
  intros k l Hk. cbn [this d index mem set_index set_mem] in *.
  rewrite lookup_insert in Hk. case_decide as Heq.
  - injection Hk as <-. subst k.
    destruct (cellwise_lookup _ _ _ _ _ Hmem Hen) as (c' & Hc' & Hkey').
    by exists c'.
  - destruct (Hw k l Hk) as (c & Hc & Hck).
    destruct (cellwise_lookup _ _ _ _ _ Hmem Hc) as (c' & Hc' & Hkey').
    exists c'. split; [done|]. unfold same_key in Hkey'. congruence.
Qed.

Lemma keeps_index_consistent_Remove x :
  keeps_index_consistent (Remove x : M unit).
Proof.
  intros w Hw. apply (index_consistent_step w); [done| |].
  - cbn [Remove snd mem set_mem set_index].
    eapply cellwise_trans; [apply _|apply detach_same_key|].
    apply Release_same_key.
  - cbn [Remove snd this d index set_mem set_index].
    intros k l. apply evict_lookup_Some.
Qed.

Lemma keeps_index_consistent_MoveFrom t x :
  keeps_index_consistent (MoveFrom t x : M unit).
Proof.
  intros w Hw. apply (index_consistent_step w); [done| |done].
  cbn [MoveFrom snd mem set_mem set_moveCache].
  destruct (moveCache (d (this w)) !! t); [|apply detach_same_key].
  eapply cellwise_trans; [apply _|apply detach_same_key|].
  apply Release_same_key.
Qed.

Lemma keeps_index_consistent_MoveClear t :
  keeps_index_consistent (MoveClear t : M unit).
Proof.
  intros w Hw. unfold MoveClear.
  destruct (moveCache (d (this w)) !! t); [|done].
  apply (index_consistent_step w); [done| |done].
  apply Release_same_key.
Qed.

Lemma keeps_index_consistent_MoveTo t q n (cb : string → M (option error)) :
  (∀ s, keeps_index_consistent (cb s)) →
  keeps_index_consistent (MoveTo t q n cb).
Proof.
  intros Hcb w Hw. unfold MoveTo.
  destruct (moveCache (d (this w)) !! t) as [x|]; [|done].
  mstep.
  apply (index_consistent_step (cb (Path (reattached x q n (mem w)) x)
           (set_mem (λ _, reattached x q n (mem w)) w)).2);
    [|apply cellwise_refl; apply _|done].
  apply Hcb. apply (index_consistent_step w); [done| |done].
  apply reattached_same_key.
Qed.

Ltac consistent_step :=
  first
    [ apply keeps_index_consistent_still; done
    | apply keeps_index_consistent_new
    | apply keeps_index_consistent_emit
    | apply keeps_index_consistent_walkAsync
    | apply keeps_index_consistent_getMonitorPath
    | apply keeps_index_consistent_Add
    | apply keeps_index_consistent_Remove
    | apply keeps_index_consistent_MoveFrom
    | apply keeps_index_consistent_MoveClear
    | apply keeps_index_consistent_MoveTo; intros ?
    | apply keeps_index_consistent_set_mem; intros ?;
      apply Release_same_key
    | apply keeps_index_consistent_bind; [|intros ?]
    | case_match ].

(** X16. [process] keeps the key index consistent: if every key of the
    index leads to an allocated entry that carries that key, the same
    holds after the call, whatever the event, the traverser and the
    emitter do. *)
Theorem process_keeps_index_consistent pe (w : world) :
  index_consistent w → index_consistent (process pe w).2.
Proof.
  intros Hw. rewrite process_run.
  assert (keeps_index_consistent (process_body pe)) as Hbody.
  { unfold process_body. destruct (dispatch pe); repeat consistent_step. }
  apply (Hbody w Hw).
Qed.

(** ** Mask precedence *)

(** X17. [process] reads the masks only to choose its branch: two events
    that carry the same names, inodes, devices and TID and select the same
    branch are processed alike, whatever their other masks are. The
    returned error and the world are the same, up to the event that goes
    back to the pool. *)
Theorem masks_only_select_the_branch pe pe' (w : world) :
  dispatch pe = dispatch pe' →
  Meta pe = Meta pe' →
  FileName pe = FileName pe' →
  fileKey pe = fileKey pe' →
  parentKey pe = parentKey pe' →
  (process pe w).1 = (process pe' w).1
  ∧ (process pe w).2
    = released pe
        {| this := this (process pe' w).2; mem := mem (process pe' w).2;
           pool := pool w; emitted := emitted (process pe' w).2;
           walks := walks (process pe' w).2 |}.
Proof.
  intros Hkind Hmeta Hname Hfile Hparent.
  assert (process_body pe w = process_body pe' w) as Hbody.
  { unfold process_body. rewrite <-Hkind.
    injection Hfile as Hi Hma Hmi. injection Hparent as Hpi Hpma Hpmi.
    unfold fileKey, parentKey.
    by rewrite Hmeta, Hname, Hi, Hma, Hmi, Hpi, Hpma, Hpmi. }
  rewrite !process_run, Hbody. cbn [fst snd].
  split; [done|]. unfold released, releaseProbeEvent. cbn [snd this mem pool emitted walks].
  by rewrite process_body_pool.
Qed.

(** ** Create then Delete *)

Lemma create_run pe (w : world) q :
  dispatch pe = KCreate →
  index (d (this w)) !! parentKey pe = Some q →
  eligible w q →
  index (d (this w)) !! fileKey pe = None →
  let l := fresh (dom (mem w)) in
  let m1 := <[l := {| Parent := None; Depth := 0; Children := ∅;
                      Name := FileName pe; Ino := FileIno pe;
                      DevMajor := FileDevMajor pe;
                      DevMinor := FileDevMinor pe |}]> (mem w) in
  let m' := alter (set_Depth (uint32_add (depth_of m1 q) 1)) l
                  (AddChild q l m1) in
  mem (process pe w).2 = m'
  ∧ index (d (this (process pe w).2))
    = <[fileKey pe := l]> (index (d (this w)))
  ∧ moveCache (d (this (process pe w).2)) = moveCache (d (this w))
  ∧ isRecursive (this (process pe w).2) = isRecursive (this w)
  ∧ emitted (process pe w).2
    = emitted w
      ++ [((Path m' l, TID (Meta pe), IN_CREATE), (process pe w).1)]
  ∧ walks (process pe w).2 = walks w.
Proof.
  intros Hkind Hq Hopen Hfile l m1 m'.
  rewrite process_run. cbn [releaseProbeEvent fst snd this mem emitted walks].
  unfold process_body.
  rewrite Hkind. mstep. rewrite Hq. mstep. rewrite (gate_open w q Hopen).
  mstep. rewrite new_run. mstep. fold l.
  rewrite emit_d, emit_mem, emit_emitted, emit_walks.
  erewrite Add_new; [|apply lookup_insert_eq|exact Hfile].
  by mstep.
Qed.

Lemma delete_run pe (w : world) q x :
  dispatch pe = KDelete →
  index (d (this w)) !! parentKey pe = Some q →
  eligible w q →
  GetChild (mem w) q (FileName pe) = Some x →
  index (d (this (process pe w).2))
  = evict (mem w) (subtree (size (mem w)) (mem w) x) (index (d (this w)))
  ∧ moveCache (d (this (process pe w).2)) = moveCache (d (this w))
  ∧ emitted (process pe w).2
    = emitted w
      ++ [((Path (mem w) x, TID (Meta pe), IN_DELETE), (process pe w).1)]
  ∧ walks (process pe w).2 = walks w.
Proof.
  intros Hkind Hq Hopen Hchild.
  rewrite process_run. cbn [releaseProbeEvent fst snd this mem emitted walks].
  unfold process_body.
  rewrite Hkind. mstep. rewrite Hq. mstep. rewrite (gate_open w q Hopen).
  mstep. rewrite Hchild. mstep.
  case_match eqn:Hr; mstep;
    rewrite emit_d, emit_emitted, emit_walks, Hr; by mstep.
Qed.

(** X18. A Create under a cached, eligible parent, for a key that has no
    entry, followed by a Delete of the same name under the same parent,
    is a round trip on the cache: the key index is the one before the
    Create, the parent no longer lists the name, the staging map is
    untouched, and the two calls emitted exactly IN_CREATE and then
    IN_DELETE, both at the same path. *)
Theorem create_then_delete_round_trip pe1 pe2 (w : world) q :
  dispatch pe1 = KCreate →
  dispatch pe2 = KDelete →
  parentKey pe2 = parentKey pe1 →
  FileName pe2 = FileName pe1 →
  index (d (this w)) !! parentKey pe1 = Some q →
  eligible w q →
  is_Some (mem w !! q) →
  index (d (this w)) !! fileKey pe1 = None →
  let w1 := (process pe1 w).2 in
  let w2 := (process pe2 w1).2 in
  index (d (this w2)) = index (d (this w))
  ∧ moveCache (d (this w2)) = moveCache (d (this w))
  ∧ GetChild (mem w2) q (FileName pe1) = None
  ∧ ∃ path,
      (emitted w2).*1
      = (emitted w).*1 ++ [(path, TID (Meta pe1), IN_CREATE);
                           (path, TID (Meta pe2), IN_DELETE)].
Proof.
  intros Hk1 Hk2 Hparent Hname Hq Hopen Hqa Hfile w1 w2.
  destruct (create_run pe1 w q Hk1 Hq Hopen Hfile)
    as (Hmem1 & Hidx1 & Hmove1 & Hrec1 & Hemit1 & _).
  fold w1 in Hmem1, Hidx1, Hmove1, Hrec1, Hemit1.
  set (l := fresh (dom (mem w))) in *.
  set (cell := {| Parent := None; Depth := 0; Children := ∅;
                  Name := FileName pe1; Ino := FileIno pe1;
                  DevMajor := FileDevMajor pe1;
                  DevMinor := FileDevMinor pe1 |}) in *.
  assert (mem w !! l = None) as Hl by apply fresh_unallocated.
  assert (l ≠ q) as Hlq by (intros ->; rewrite Hl in Hqa; by destruct Hqa).
  assert (depth_of (<[l:=cell]> (mem w)) q = depth_of (mem w) q) as Hdq
    by (unfold depth_of; by rewrite lookup_insert_ne).
  rewrite Hdq in Hmem1, Hemit1.
  set (cell1 := {| Parent := Some q;
                   Depth := uint32_add (depth_of (mem w) q) 1;
                   Children := ∅; Name := FileName pe1; Ino := FileIno pe1;
                   DevMajor := FileDevMajor pe1;
                   DevMinor := FileDevMinor pe1 |}).
  assert (mem w1 !! l = Some cell1) as Hcell.
  { rewrite Hmem1, lookup_alter_eq. unfold AddChild.
    by rewrite lookup_alter_ne, lookup_alter_eq, lookup_insert_eq. }
  assert (GetChild (mem w1) q (FileName pe2) = Some l) as Hchild.
  { rewrite Hmem1, Hname. unfold GetChild. rewrite lookup_alter_ne by done.
    pose proof (AddChild_lookup_parent q l (<[l:=cell]> (mem w))) as Hc.
    unfold name_of, GetChild in Hc. rewrite lookup_insert_eq in Hc.
    apply Hc. by rewrite lookup_insert_ne. }
  assert (index (d (this w1)) !! parentKey pe2 = Some q) as Hq1.
  { rewrite Hidx1, Hparent, lookup_insert_ne; [done|]. congruence. }
  assert (eligible w1 q) as Hopen1.
  { destruct Hopen as [Hroot|Hrec]; [left|right; by rewrite Hrec1].
    rewrite Hmem1. unfold depth_of, AddChild.
    rewrite lookup_alter_ne, lookup_alter_eq, lookup_alter_ne,
      lookup_insert_ne by done.
    unfold depth_of in Hroot. by destruct (mem w !! q). }
  destruct (delete_run pe2 w1 q l Hk2 Hq1 Hopen1 Hchild)
    as (Hidx2 & Hmove2 & Hemit2 & _).
  fold w2 in Hidx2, Hmove2, Hemit2.
  assert (subtree (size (mem w1)) (mem w1) l = [l]) as Hsub.
  { destruct (size (mem w1)); [done|]. cbn [subtree]. unfold children_of.
    rewrite Hcell. cbn [Children cell1]. by rewrite map_to_list_empty. }
  split.
  { rewrite Hidx2, Hsub. unfold evict. cbn [foldr]. rewrite Hcell.
    change (entry_key cell1) with (fileKey pe1).
    by rewrite Hidx1, delete_insert_id. }
  split; [by rewrite Hmove2|].
  split.
  { rewrite <-Hname.
    by apply (delete_evicts_entry pe2 w1 q l cell1 Hk2 Hq1 Hopen1 Hchild). }
  exists (Path (mem w1) l).
  rewrite Hemit2, Hemit1, !fmap_app, <-Hmem1, <-app_assoc. done.
Qed.

Lemma index_consistent_by_lookup (w : world) :
  map_Forall (λ k l, entry_key <$> mem w !! l = Some k)
             (index (d (this w))) →
  index_consistent w.
Proof.
  intros Hall k l Hk. specialize (Hall k l Hk). cbn in Hall.
  destruct (mem w !! l) as [c|]; [|done].
  exists c. split; [done|]. by injection Hall.
Qed.

End facts.

(** * The properties on the small monitored tree *)

(** C2 fails for Monitor records. Recursion is disabled, "sub" is cached
    at depth 1, and the traverser acknowledges a Monitor record for the
    unknown inode 4 under "sub": [process] adds the entry to the cache at
    depth 2. *)
Lemma monitor_creates_deep_entry :
  let w := flat_world
             ({| fullPath := "/m/sub/y"; depth := 2; isFromMove := false;
                 tid := 0 |}, true) None ∅ in
  let pe := probe KMonitor 0 "y" 4 2 in
  isRecursive (this w) = false
  ∧ created w (process pe w).2 3%positive
  ∧ depth_of (mem (process pe w).2) 3%positive = 2%N.
Proof.
  split; [done|]. split; [|by vm_compute].
  exists (DKey 4 0 0). split; by vm_compute.
Qed.

(** Scenario "rename within a monitored subtree": "sub" is moved to "b"
    under the root by task 7. *)
Lemma movefrom_then_moveto_renames_witness :
  let w := flat_world no_match None ∅ in
  let pe1 := probe KMoveFrom 7 "sub" 2 1 in
  let pe2 := probe KMoveTo 7 "b" 2 1 in
  let w2 := (process pe2 (process pe1 w).2).2 in
  index (d (this w2)) !! DKey 2 0 0 = Some 2%positive
  ∧ (emitted w2).*1 = [("/m/sub", 7%N, IN_MOVED_FROM);
                       ("/m/b", 7%N, IN_MOVED_TO)].
Proof.
  intros w pe1 pe2 w2.
  pose proof (movefrom_then_moveto_renames pe1 pe2 w 1%positive
                2%positive
                {| Parent := Some 1%positive; Depth := 1; Children := ∅;
                   Name := "sub"; Ino := 2; DevMajor := 0; DevMinor := 0 |}
                1%positive) as Hpair.
  destruct Hpair as (Hidx & _ & _ & _ & _ & Hemit & _);
    [reflexivity | reflexivity | reflexivity | vm_compute; reflexivity
    | left; vm_compute; reflexivity | vm_compute; reflexivity
    | vm_compute; reflexivity | vm_compute; reflexivity
    | vm_compute; reflexivity | left; vm_compute; reflexivity |].
  split; [exact Hidx|]. etrans; [exact Hemit|]. vm_compute. reflexivity.
Defined.

(** A Create under the root of the non-recursive monitor adds its entry
    at depth 1. *)
Lemma gate_bounds_created_depth_witness :
  let w := flat_world no_match None ∅ in
  let pe := probe KCreate 5 "a" 4 1 in
  depth_of (mem (process pe w).2) 3%positive = 1%N.
Proof.
  intros w pe.
  apply (gate_bounds_created_depth pe w 3%positive);
    [reflexivity | vm_compute; discriminate |].
  exists (DKey 4 0 0). split; vm_compute; reflexivity.
Defined.

(** Scenario "unknown mask". *)
Lemma unknown_mask_is_rejected_witness :
  let w := flat_world no_match None ∅ in
  let pe := probe KUnknown 0 "a" 2 1 in
  (process pe w).1 = Some "unknown event type"
  ∧ pool (process pe w).2 = [pe].
Proof.
  intros w pe.
  rewrite (unknown_mask_is_rejected pe w);
    [split; reflexivity | vm_compute; discriminate..].
Defined.

(** Scenario "rename into the subtree from outside": no entry is staged
    for task 9, so a walk of "/m/c" is scheduled at depth 1. *)
Lemma moveto_without_staged_entry_walks_witness :
  let w := flat_world no_match None ∅ in
  let pe := probe KMoveTo 9 "c" 7 1 in
  emitted (process pe w).2 = []
  ∧ walks (process pe w).2 = [("/m/c", 1%N, 9%N)].
Proof.
  intros w pe.
  destruct (moveto_without_staged_entry_walks pe w 1%positive)
    as (_ & Hemit & Hwalk & _);
    [reflexivity | vm_compute; reflexivity | left; vm_compute; reflexivity
    | vm_compute; reflexivity |].
  split; [exact Hemit|]. etrans; [exact Hwalk|]. vm_compute. reflexivity.
Defined.

(** A MoveFrom under "sub", at depth 1 of the non-recursive monitor,
    clears the slot of task 9, in which "sub" itself was staged. *)
Lemma move_outside_clears_slot_witness :
  let w := flat_world no_match None {[ 9%N := 2%positive ]} in
  let pe := probe KMoveFrom 9 "x" 3 2 in
  (process pe w).1 = None
  ∧ moveCache (d (this (process pe w).2)) = ∅
  ∧ mem (process pe w).2 !! 1%positive = mem w !! 1%positive.
Proof.
  intros w pe.
  assert (index (d (this w)) !! parentKey pe = None
          ∨ (∃ q, index (d (this w)) !! parentKey pe = Some q
                  ∧ (1 ≤ depth_of (mem w) q)%N
                  ∧ isRecursive (this w) = false)) as Hout.
  { right. exists 2%positive. split; [vm_compute; reflexivity|].
    split; [vm_compute; discriminate | reflexivity]. }
  pose proof (move_outside_clears_slot pe w (or_introl eq_refl) Hout)
    as Hclear.
  cbv zeta in Hclear.
  destruct Hclear as (Hres & _ & _ & _ & Hslot & _ & Hframe).
  split; [exact Hres|]. split; [etrans; [exact Hslot|by vm_compute]|].
  apply Hframe. intros old Hold. vm_compute in Hold.
  injection Hold as <-. vm_compute. intros Hin.
  repeat (apply elem_of_cons in Hin as [Hin|Hin]; [discriminate|]).
  by apply elem_of_nil in Hin.
Defined.

(** Scenario "recursion off, deep create". *)
Lemma gate_filters_deep_create_delete_witness :
  let w := flat_world no_match None ∅ in
  let pe := probe KCreate 5 "x" 3 2 in
  process pe w
  = (None,
     {| this := this w; mem := mem w; pool := [pe]; emitted := [];
        walks := [] |}).
Proof.
  intros w pe.
  destruct (gate_filters_deep_create_delete pe w) as [Hdeep _];
    [left; reflexivity | reflexivity |].
  apply (Hdeep 2%positive); vm_compute; [reflexivity | discriminate].
Defined.

(** A Create under the root whose emission fails with "boom". *)
Lemma failed_emit_is_returned_and_cache_kept_witness :
  let w := flat_world no_match (Some "boom") ∅ in
  let pe := probe KCreate 5 "a" 4 1 in
  (process pe w).1 = Some "boom"
  ∧ ∃ q l, index (d (this w)) !! parentKey pe = Some q
           ∧ index (d (this (process pe w).2)) !! fileKey pe = Some l
           ∧ parent_of (mem (process pe w).2) l = Some q
           ∧ name_of (mem (process pe w).2) l = FileName pe.
Proof.
  intros w pe.
  destruct (failed_emit_is_returned_and_cache_kept pe w
              ("/m/a", 5%N, IN_CREATE) "boom") as (Hres & Hcreate & _).
  { vm_compute. apply list_elem_of_here. }
  split; [exact Hres|]. apply Hcreate; vm_compute; reflexivity.
Defined.

(** A re-walk reports "x" again, as the completion of a move by task 4. *)
Lemma duplicate_monitor_record_witness :
  let mp := {| fullPath := "/m/sub/x"; depth := 2; isFromMove := true;
               tid := 4 |} in
  let w := tree_world true (mp, true) None ∅ in
  let pe := probe KMonitor 0 "x" 3 2 in
  d (this (process pe w).2) = d (this w)
  ∧ emitted (process pe w).2
    = [(("/m/sub/x", 4%N, IN_MOVED_TO), None)].
Proof.
  intros mp w pe.
  destruct (duplicate_monitor_record pe w (mp, true) mp 3%positive
              {| Parent := Some 2%positive; Depth := 2; Children := ∅;
                 Name := "x"; Ino := 3; DevMajor := 0; DevMinor := 0 |})
    as (Hd & _ & _ & _ & Hemit);
    [reflexivity | reflexivity | vm_compute; reflexivity
    | vm_compute; reflexivity | reflexivity |].
  split; [exact Hd|]. etrans; [exact (Hemit eq_refl)|].
  vm_compute. reflexivity.
Defined.

(** A MoveFrom for a name the root does not hold leaves the entry staged
    for task 7 where it is. *)
Lemma movefrom_of_unknown_child_is_inert_witness :
  let w := tree_world true no_match None {[ 7%N := 3%positive ]} in
  let pe := probe KMoveFrom 7 "nope" 9 1 in
  (process pe w).1 = None
  ∧ moveCache (d (this (process pe w).2)) !! 7%N = Some 3%positive.
Proof.
  intros w pe.
  destruct (movefrom_of_unknown_child_is_inert pe w 1%positive)
    as [Hrun Hslot];
    [reflexivity | vm_compute; reflexivity | left; vm_compute; reflexivity
    | vm_compute; reflexivity |].
  split; [by rewrite Hrun|]. etrans; [exact Hslot|]. vm_compute. reflexivity.
Defined.

(** ** The scenarios of the specification, run on the model *)

(** "Create under root": the child is added at depth 1 and IN_CREATE is
    emitted at its path. *)
Example scenario_create_under_root :
  let w := flat_world no_match None ∅ in
  let w' := (process (probe KCreate 5 "a" 4 1) w).2 in
  emitted w' = [(("/m/a", 5%N, IN_CREATE), None)]
  ∧ index (d (this w')) !! DKey 4 0 0 = Some 3%positive
  ∧ GetChild (mem w') 1%positive "a" = Some 3%positive
  ∧ depth_of (mem w') 3%positive = 1%N.
Proof. by vm_compute. Qed.

(** "Delete subtree": IN_DELETE is emitted for "sub", and both "sub" and
    "x" leave the key index. *)
Example scenario_delete_subtree :
  let w := tree_world true no_match None ∅ in
  let w' := (process (probe KDelete 5 "sub" 2 1) w).2 in
  emitted w' = [(("/m/sub", 5%N, IN_DELETE), None)]
  ∧ index (d (this w')) = {[ DKey 1 0 0 := 1%positive ]}
  ∧ GetChild (mem w') 1%positive "sub" = None.
Proof. by vm_compute. Qed.

(** The round trip Create, Modify, Delete of "a" under the root. *)
Example scenario_round_trip :
  let w := flat_world no_match None ∅ in
  let w1 := (process (probe KCreate 5 "a" 4 1) w).2 in
  let w2 := (process (probe KModify 5 "a" 4 1) w1).2 in
  let w3 := (process (probe KDelete 5 "a" 4 1) w2).2 in
  (emitted w3).*1 = [("/m/a", 5%N, IN_CREATE); ("/m/a", 5%N, IN_MODIFY);
                     ("/m/a", 5%N, IN_DELETE)]
  ∧ index (d (this w3)) = index (d (this w))
  ∧ GetChild (mem w3) 1%positive "a" = None
  ∧ length (pool w3) = 3.
Proof. by vm_compute. Qed.

(** "Rename into the subtree from outside": the MoveTo schedules a walk,
    and the Monitor record of that walk emits IN_MOVED_TO. *)
Example scenario_rename_from_outside :
  let answer := ({| fullPath := "/m/c"; depth := 1; isFromMove := true;
                    tid := 9 |}, true) in
  let w := flat_world answer None ∅ in
  let w1 := (process (probe KMoveTo 9 "c" 7 1) w).2 in
  let w2 := (process (probe KMonitor 0 "c" 7 1) w1).2 in
  walks w1 = [("/m/c", 1%N, 9%N)]
  ∧ emitted w1 = []
  ∧ emitted w2 = [(("/m/c", 9%N, IN_MOVED_TO), None)].
Proof. by vm_compute. Qed.

(** * The further properties on the small monitored tree *)

Lemma modify_attrib_of_unknown_subject_is_inert_witness :
  let w := flat_world no_match None ∅ in
  let pe := probe KModify 5 "zz" 99 1 in
  process pe w = (None, released pe w).
Proof.
  intros w pe.
  apply (modify_attrib_of_unknown_subject_is_inert pe w);
    [left; reflexivity | vm_compute; reflexivity].
Defined.

Lemma modify_attrib_of_cached_subject_emits_witness :
  let w := tree_world false no_match None ∅ in
  let pe := probe KAttrib 5 "x" 3 2 in
  (process pe w).1 = None
  ∧ emitted (process pe w).2 = [(("/m/sub/x", 5%N, IN_ATTRIB), None)].
Proof.
  intros w pe.
  rewrite (modify_attrib_of_cached_subject_emits pe w 3%positive);
    [split; vm_compute; reflexivity
    | right; reflexivity | vm_compute; reflexivity].
Defined.

Lemma unacknowledged_monitor_is_dropped_witness :
  let w := flat_world no_match None ∅ in
  let pe := probe KMonitor 0 "y" 4 1 in
  (process pe w).1 = None ∧ mem (process pe w).2 = mem w
  ∧ d (this (process pe w).2) = d (this w).
Proof.
  intros w pe.
  rewrite (unacknowledged_monitor_is_dropped pe w no_match no_match.1);
    [by repeat split | reflexivity | reflexivity].
Defined.

Lemma create_delete_under_uncached_parent_is_inert_witness :
  let w := tree_world true no_match None ∅ in
  let pe := probe KCreate 5 "a" 4 99 in
  process pe w = (None, released pe w).
Proof.
  intros w pe.
  apply (create_delete_under_uncached_parent_is_inert pe w);
    [left; reflexivity | vm_compute; reflexivity].
Defined.

Lemma delete_of_unknown_child_is_inert_witness :
  let w := tree_world true no_match None ∅ in
  let pe := probe KDelete 5 "nope" 9 1 in
  process pe w = (None, released pe w).
Proof.
  intros w pe.
  apply (delete_of_unknown_child_is_inert pe w 1%positive);
    [reflexivity | vm_compute; reflexivity | vm_compute; reflexivity].
Defined.

Lemma create_adds_child_and_emits_witness :
  let w := flat_world no_match None ∅ in
  let pe := probe KCreate 5 "a" 4 1 in
  ∃ l, mem w !! l = None
       ∧ index (d (this (process pe w).2))
         = <[fileKey pe := l]> (index (d (this w)))
       ∧ GetChild (mem (process pe w).2) 1%positive "a" = Some l.
Proof.
  intros w pe.
  destruct (create_adds_child_and_emits pe w 1%positive)
    as (l & Hl & Hidx & _ & Hchild & _);
    [reflexivity | vm_compute; reflexivity | left; vm_compute; reflexivity
    | vm_compute; eexists; reflexivity | vm_compute; reflexivity |].
  exists l. by repeat split.
Defined.

Lemma delete_removes_subtree_and_emits_witness :
  let w := tree_world true no_match None ∅ in
  let pe := probe KDelete 5 "sub" 2 1 in
  emitted (process pe w).2
  = [(("/m/sub", 5%N, IN_DELETE), (process pe w).1)]
  ∧ walks (process pe w).2 = [].
Proof.
  intros w pe.
  destruct (delete_removes_subtree_and_emits pe w 1%positive 2%positive)
    as (Hemit & _ & _ & _ & _ & Hwalk);
    [reflexivity | vm_compute; reflexivity | left; vm_compute; reflexivity
    | vm_compute; reflexivity |].
  split; [|exact Hwalk]. etrans; [exact Hemit|]. reflexivity.
Defined.

Lemma movefrom_stages_child_and_emits_witness :
  let w := flat_world no_match None ∅ in
  let pe := probe KMoveFrom 7 "sub" 2 1 in
  moveCache (d (this (process pe w).2)) = {[ 7%N := 2%positive ]}
  ∧ emitted (process pe w).2
    = [(("/m/sub", 7%N, IN_MOVED_FROM), (process pe w).1)].
Proof.
  intros w pe.
  destruct (movefrom_stages_child_and_emits pe w 1%positive 2%positive)
    as (Hslot & Hemit & _);
    [reflexivity | vm_compute; reflexivity | left; vm_compute; reflexivity
    | vm_compute; reflexivity |].
  split; [etrans; [exact Hslot|reflexivity]|].
  etrans; [exact Hemit|]. reflexivity.
Defined.

Lemma monitor_installs_root_witness :
  let mp := {| fullPath := "/n"; depth := 0; isFromMove := false;
               tid := 0 |} in
  let w := flat_world (mp, true) None ∅ in
  let pe := probe KMonitor 0 "/n" 10 11 in
  ∃ l, mem w !! l = None
       ∧ index (d (this (process pe w).2))
         = <[DKey 10 0 0 := l]> (index (d (this w)))
       ∧ emitted (process pe w).2 = [].
Proof.
  intros mp w pe.
  destruct (monitor_installs_root pe w (mp, true) mp)
    as (l & Hl & _ & Hidx & _ & _ & Hquiet & _);
    [reflexivity | reflexivity | vm_compute; reflexivity
    | vm_compute; reflexivity |].
  exists l. split; [exact Hl|]. split; [exact Hidx|].
  by destruct (Hquiet eq_refl).
Defined.

Lemma monitor_adds_child_witness :
  let mp := {| fullPath := "/m/sub/y"; depth := 2; isFromMove := true;
               tid := 6 |} in
  let w := flat_world (mp, true) None ∅ in
  let pe := probe KMonitor 0 "y" 4 2 in
  ∃ l, GetChild (mem (process pe w).2) 2%positive "y" = Some l
       ∧ depth_of (mem (process pe w).2) l = 2%N.
Proof.
  intros mp w pe.
  destruct (monitor_adds_child pe w (mp, true) mp 2%positive)
    as (l & _ & _ & Hcell & Hchild & _);
    [reflexivity | reflexivity | vm_compute; reflexivity
    | vm_compute; eexists; reflexivity | vm_compute; reflexivity |].
  exists l. split; [exact Hchild|]. unfold depth_of. by rewrite Hcell.
Defined.

Lemma emission_carries_branch_op_and_tid_witness :
  let w := flat_world no_match None ∅ in
  let pe := probe KCreate 5 "a" 4 1 in
  ("/m/a", 5%N, IN_CREATE).2 = branch_op (dispatch pe)
  ∧ (dispatch pe ≠ KMonitor
     → ("/m/a", 5%N, IN_CREATE).1.2 = TID (Meta pe)).
Proof.
  intros w pe.
  apply (emission_carries_branch_op_and_tid pe w ("/m/a", 5%N, IN_CREATE)
           None).
  vm_compute. apply list_elem_of_here.
Defined.

Lemma new_processor_ignores_all_but_monitor_witness :
  let w : @world (MonitorPath * bool) (option error) :=
    {| this := newEventProcessor no_match None true; mem := ∅;
       pool := []; emitted := []; walks := [] |} in
  let pe := probe KMoveTo 3 "a" 4 1 in
  process pe w = (None, released pe w).
Proof.
  intros w pe.
  apply (new_processor_ignores_all_but_monitor pe w no_match None true);
    [reflexivity | vm_compute; discriminate | vm_compute; discriminate].
Defined.

Lemma process_keeps_index_consistent_witness :
  let w := tree_world true no_match None ∅ in
  let pe := probe KDelete 5 "sub" 2 1 in
  index_consistent (process pe w).2.
Proof.
  intros w pe. apply (process_keeps_index_consistent pe w).
  apply index_consistent_by_lookup.
  apply (bool_decide_unpack _). vm_compute. exact I.
Defined.

Lemma masks_only_select_the_branch_witness :
  let w := flat_world no_match None ∅ in
  let pe' := probe KCreate 5 "a" 4 1 in
  let pe := {| Meta := Meta pe'; MaskMonitor := 0; MaskCreate := 1;
               MaskModify := 0; MaskAttrib := 0; MaskMoveFrom := 0;
               MaskMoveTo := 0; MaskDelete := 1; FileName := "a";
               FileIno := 4; FileDevMajor := 0; FileDevMinor := 0;
               ParentIno := 1; ParentDevMajor := 0; ParentDevMinor := 0 |} in
  (process pe w).1 = (process pe' w).1
  ∧ emitted (process pe w).2 = emitted (process pe' w).2.
Proof.
  intros w pe' pe.
  destruct (masks_only_select_the_branch pe pe' w) as [Hres Hworld];
    [reflexivity..|].
  split; [exact Hres|]. by rewrite Hworld.
Defined.

Lemma create_then_delete_round_trip_witness :
  let w := flat_world no_match None ∅ in
  let pe1 := probe KCreate 5 "a" 4 1 in
  let pe2 := probe KDelete 5 "a" 4 1 in
  index (d (this (process pe2 (process pe1 w).2).2)) = index (d (this w))
  ∧ GetChild (mem (process pe2 (process pe1 w).2).2) 1%positive "a" = None.
Proof.
  intros w pe1 pe2.
  destruct (create_then_delete_round_trip pe1 pe2 w 1%positive)
    as (Hidx & _ & Hchild & _);
    [reflexivity | reflexivity | reflexivity | reflexivity
    | vm_compute; reflexivity | left; vm_compute; reflexivity
    | vm_compute; eexists; reflexivity | vm_compute; reflexivity |].
  by split.
Defined.
